(** * The bolt persistence store of the MQTT broker

    A shallow embedding of package [bolt] (the [Store] type and its
    methods) together with a model of the part of the storm/bbolt engine
    that the store calls, and the properties of the store that follow
    from them.

    Layout:
    - [persistence]: the record types and kind tags the store persists;
    - [storm]: the embedded engine, as far as the store uses it;
    - [bolt]: the store itself, method by method;
    - the theorems. *)

From Stdlib Require Import ZArith String List Bool.
From stdpp Require Import gmap strings list fin_maps.

Open Scope string_scope.
Open Scope Z_scope.

(** ** Package persistence: records and kind tags *)

Module persistence.

(** Modelled from the spec: the kind tags of package persistence, which
    is not part of the sources at hand.  The store only relies on the
    tags being constants; the theorems only rely on [KInflight] and
    [KRetained] being different. *)
Definition KSubscription : string := "sub".
Definition KServerInfo : string := "srv".
Definition KRetained : string := "ret".
Definition KInflight : string := "ifm".
Definition KClient : string := "cl".

(** Modelled from the spec: the ServerInfo record (singleton row: a
    storage key and a statistics/version blob). *)
Record ServerInfo := mkServerInfo {
  si_ID : string;
  si_Info : list Byte.byte;
}.

(** Modelled from the spec: the Client record (session id, kind tag and
    session metadata). *)
Record Client := mkClient {
  cl_ID : string;
  cl_T : string;
  cl_ProtocolVersion : Z;
  cl_CleanSession : bool;
  cl_LWT : list Byte.byte;
}.

(** Modelled from the spec: the Subscription record (subscription id,
    kind tag, client id, topic filter, QoS). *)
Record Subscription := mkSubscription {
  sub_ID : string;
  sub_T : string;
  sub_Client : string;
  sub_Filter : string;
  sub_QoS : Z;
}.

(** Modelled from the spec: the Message record shared by in-flight and
    retained messages (message id, kind discriminator, payload, topic,
    QoS, packet id, created timestamp in unix seconds, an int64). *)
Record Message := mkMessage {
  ID : string;
  T : string;
  Payload : list Byte.byte;
  TopicName : string;
  QoS : Z;
  PacketID : Z;
  Created : Z;
}.

(** Go zero values. *)
Definition zeroServerInfo : ServerInfo := mkServerInfo "" [].
Definition zeroClient : Client := mkClient "" "" 0 false [].
Definition zeroSubscription : Subscription := mkSubscription "" "" "" "" 0.
Definition zeroMessage : Message := mkMessage "" "" [] "" 0 0 0.

End persistence.

Import persistence.

(** ** Errors

    Go's [error] values are compared by identity; [nil] is [None]. *)

Inductive error :=
| ErrDBNotOpen                 (* bolt.ErrDBNotOpen, "boltdb not opened" *)
| ErrNotFound                  (* storm.ErrNotFound *)
| ErrZeroID                    (* storm.ErrZeroID *)
| ErrDatabaseNotOpen           (* bbolt.ErrDatabaseNotOpen *)
| ErrEngine (msg : string).    (* any other engine failure: I/O, disk full *)

(** ** The embedded engine (storm over bbolt), as the store uses it *)

Module storm.

(** bbolt.Options: the fields of the external struct that matter to
    the store; [Timeout] is a time.Duration, in nanoseconds. *)
Record Options := mkOptions {
  Timeout : Z;
  NoGrowSync : bool;
  ReadOnly : bool;
  MmapFlags : Z;
  InitialMmapSize : Z;
}.

(** An open database file.  One bucket per struct type, keyed by the
    struct's id; [opened] is bbolt's flag, cleared by [Close];
    [faults] is the environment: the outcome of the next transactions,
    [Some msg] for one that fails (I/O error, disk full) and [None]
    for one that goes through. *)
Record DB := mkDB {
  opened : bool;
  faults : list (option string);
  ServerInfoBucket : gmap string ServerInfo;
  ClientBucket : gmap string Client;
  SubscriptionBucket : gmap string Subscription;
  MessageBucket : gmap string Message;
}.

Definition emptyDB : DB := mkDB true [] ∅ ∅ ∅ ∅.

(** What storm finds by reflection on a struct type: its id field and
    its bucket. *)
Class Struct (A : Type) := {
  structID : A → string;
  withID : string → A;            (* the literal A{ID: id} *)
  bucket : DB → gmap string A;
  withBucket : gmap string A → DB → DB;
}.

#[global] Instance ServerInfo_Struct : Struct ServerInfo := {
  structID := si_ID;
  withID id := mkServerInfo id [];
  bucket := ServerInfoBucket;
  withBucket b d :=
    mkDB (opened d) (faults d) b (ClientBucket d) (SubscriptionBucket d)
         (MessageBucket d);
}.

#[global] Instance Client_Struct : Struct Client := {
  structID := cl_ID;
  withID id := mkClient id "" 0 false [];
  bucket := ClientBucket;
  withBucket b d :=
    mkDB (opened d) (faults d) (ServerInfoBucket d) b (SubscriptionBucket d)
         (MessageBucket d);
}.

#[global] Instance Subscription_Struct : Struct Subscription := {
  structID := sub_ID;
  withID id := mkSubscription id "" "" "" 0;
  bucket := SubscriptionBucket;
  withBucket b d :=
    mkDB (opened d) (faults d) (ServerInfoBucket d) (ClientBucket d) b
         (MessageBucket d);
}.

#[global] Instance Message_Struct : Struct Message := {
  structID := ID;
  withID id := mkMessage id "" [] "" 0 0 0;
  bucket := MessageBucket;
  withBucket b d :=
    mkDB (opened d) (faults d) (ServerInfoBucket d) (ClientBucket d)
         (SubscriptionBucket d) b;
}.

Definition setFaults (fs : list (option string)) (d : DB) : DB :=
  mkDB (opened d) fs (ServerInfoBucket d) (ClientBucket d)
       (SubscriptionBucket d) (MessageBucket d).

(** Beginning a transaction: a closed database refuses it, otherwise
    the environment decides whether it fails. *)
Definition begin (d : DB) : DB * option error :=
  if opened d then
    match faults d with
    | [] => (d, None)
    | f :: fs => (setFaults fs d, ErrEngine <$> f)
    end
  else (d, Some ErrDatabaseNotOpen).

(** db.Save(&v): upsert under the struct's id; a zero id is refused
    before any transaction starts. *)
Definition Save {A} `{Struct A} (v : A) (d : DB) : DB * option error :=
  if String.eqb (structID v) "" then (d, Some ErrZeroID)
  else
    match begin d with
    | (d', Some e) => (d', Some e)
    | (d', None) => (withBucket (<[structID v := v]> (bucket d')) d', None)
    end.

(** db.DeleteStruct(&v): delete the record stored under v's id; the
    engine answers ErrNotFound when there is none. *)
Definition DeleteStruct {A} `{Struct A} (v : A) (d : DB)
  : DB * option error :=
  match begin d with
  | (d', Some e) => (d', Some e)
  | (d', None) =>
      match bucket d' !! structID v with
      | None => (d', Some ErrNotFound)
      | Some _ => (withBucket (delete (structID v) (bucket d')) d', None)
      end
  end.

(** The records of a bucket whose field equals the value, in the
    engine's key order. *)
Definition matching {A} `{Struct A} (field : A → string) (value : string)
    (d : DB) : list A :=
  filter (λ r, field r = value) (snd <$> map_to_list (bucket d)).

(** db.Find(field, value, &to): every record of the bucket whose field
    equals the value; with none, [to] is left as it was and the engine
    answers ErrNotFound. *)
Definition Find {A} `{Struct A} (field : A → string) (value : string)
    (to : list A) (d : DB) : DB * list A * option error :=
  match begin d with
  | (d', Some e) => (d', to, Some e)
  | (d', None) =>
      match matching field value d' with
      | [] => (d', to, Some ErrNotFound)
      | rs => (d', rs, None)
      end
  end.

(** db.One(field, value, &to): the first record of the bucket whose
    field equals the value; with none, [to] is left as it was and the
    engine answers ErrNotFound. *)
Definition One {A} `{Struct A} (field : A → string) (value : string)
    (to : A) (d : DB) : DB * A * option error :=
  match begin d with
  | (d', Some e) => (d', to, Some e)
  | (d', None) =>
      match matching field value d' with
      | [] => (d', to, Some ErrNotFound)
      | r :: _ => (d', r, None)
      end
  end.

(** db.Close(): the file is released; later transactions are refused. *)
Definition Close (d : DB) : DB :=
  mkDB false (faults d) (ServerInfoBucket d) (ClientBucket d)
       (SubscriptionBucket d) (MessageBucket d).

End storm.

Import storm.

(** ** Package bolt: the store *)

Module bolt.

(** defaultPath is the default file to use to store the data. *)
Definition defaultPath : string := "mochi.db".

(** defaultTimeout is the default timeout of the file lock:
    250 * time.Millisecond, in nanoseconds. *)
Definition Millisecond : Z := 1000000.
Definition defaultTimeout : Z := 250 * Millisecond.

(** Store is a backend for writing and reading to bolt persistent
    storage.  [opts] and [db] are pointers: [None] is nil. *)
Record Store := mkStore {
  path : string;
  opts : option Options;
  db : option DB;
  inflightTTL : Z;
}.

Definition setDB (s : Store) (d : option DB) : Store :=
  mkStore (path s) (opts s) d (inflightTTL s).

(** New returns a configured instance of the boltdb store. *)
Definition New (path : string) (opts : option Options) : Store :=
  let path :=
    if String.eqb path "" || String.eqb path "." then defaultPath
    else path in
  let opts :=
    match opts with
    | None => Some (mkOptions defaultTimeout false false 0 0)
    | Some o => Some o
    end in
  mkStore path opts None 0.

(** SetInflightTTL sets the number of seconds an inflight message
    should be kept before being dropped. *)
Definition SetInflightTTL (s : Store) (seconds : Z) : Store :=
  mkStore (path s) (opts s) (db s) seconds.

(** Open opens the boltdb instance.  What storm.Open answers for the
    store's path and options is the environment's business and comes
    as [opened_file]: a database handle, or nil and an error. *)
Definition Open (opened_file : string → option Options → DB + error)
    (s : Store) : Store * option error :=
  match opened_file (path s) (opts s) with
  | inl d => (setDB s (Some d), None)
  | inr e => (setDB s None, Some e)
  end.

(** Close closes the boltdb instance.  There is no nil check and no
    result: on a nil handle the call dereferences nil. *)
Inductive CloseResult :=
| Closed (s : Store)
| NilDereference.

Definition Close (s : Store) : CloseResult :=
  match db s with
  | None => NilDereference
  | Some d => Closed (setDB s (Some (storm.Close d)))
  end.

(** The five writers share one body: nil check, then db.Save(&v). *)
Definition write {A} `{Struct A} (s : Store) (v : A)
  : Store * option error :=
  match db s with
  | None => (s, Some ErrDBNotOpen)
  | Some d =>
      match Save v d with
      | (d', Some err) => (setDB s (Some d'), Some err)
      | (d', None) => (setDB s (Some d'), None)
      end
  end.

Definition WriteServerInfo (s : Store) (v : ServerInfo) := write s v.
Definition WriteSubscription (s : Store) (v : Subscription) := write s v.
Definition WriteInflight (s : Store) (v : Message) := write s v.
Definition WriteRetained (s : Store) (v : Message) := write s v.
Definition WriteClient (s : Store) (v : Client) := write s v.

(** The four deleters share one body: nil check, then
    db.DeleteStruct(&A{ID: id}). *)
Definition remove (A : Type) `{Struct A} (s : Store) (id : string)
  : Store * option error :=
  match db s with
  | None => (s, Some ErrDBNotOpen)
  | Some d =>
      match DeleteStruct (withID (A:=A) id) d with
      | (d', Some err) => (setDB s (Some d'), Some err)
      | (d', None) => (setDB s (Some d'), None)
      end
  end.

Definition DeleteSubscription (s : Store) (id : string) :=
  remove Subscription s id.
Definition DeleteClient (s : Store) (id : string) := remove Client s id.
Definition DeleteInflight (s : Store) (id : string) := remove Message s id.
Definition DeleteRetained (s : Store) (id : string) := remove Message s id.

(** Whether a read goes on after the engine's answer:
    err != nil && err != storm.ErrNotFound returns early. *)
Definition fatal (err : option error) : option error :=
  match err with
  | Some ErrNotFound | None => None
  | Some e => Some e
  end.

(** The four collection reads share one body: nil check, then
    db.Find("T", kind, &v), with not-found let through. *)
Definition readKind {A} `{Struct A} (fieldT : A → string) (kind : string)
    (s : Store) : Store * list A * option error :=
  match db s with
  | None => (s, [], Some ErrDBNotOpen)
  | Some d =>
      let '(d', v, err) := Find fieldT kind [] d in
      match fatal err with
      | Some e => (setDB s (Some d'), v, Some e)
      | None => (setDB s (Some d'), v, None)
      end
  end.

Definition ReadSubscriptions := readKind sub_T KSubscription.
Definition ReadClients := readKind cl_T KClient.
Definition ReadInflight := readKind T KInflight.
Definition ReadRetained := readKind T KRetained.

(** ReadServerInfo loads the server info from the boltdb instance. *)
Definition ReadServerInfo (s : Store)
  : Store * ServerInfo * option error :=
  match db s with
  | None => (s, zeroServerInfo, Some ErrDBNotOpen)
  | Some d =>
      let '(d', v, err) := One si_ID KServerInfo zeroServerInfo d in
      match fatal err with
      | Some e => (setDB s (Some d'), v, Some e)
      | None => (setDB s (Some d'), v, None)
      end
  end.

(** The staleness test of the sweep:
    m.Created < expiry || m.Created == 0. *)
Definition stale (expiry : Z) (m : Message) : bool :=
  (Created m <? expiry) || (Created m =? 0).

(** The loop of ClearExpiredInflight over the records found. *)
Fixpoint sweep (expiry : Z) (v : list Message) (d : DB)
  : DB * option error :=
  match v with
  | [] => (d, None)
  | m :: rest =>
      if stale expiry m then
        match DeleteStruct (withID (A:=Message) (ID m)) d with
        | (d', Some err) => (d', Some err)
        | (d', None) => sweep expiry rest d'
        end
      else sweep expiry rest d
  end.

(** ClearExpiredInflight deletes any inflight messages older than the
    provided unix timestamp. *)
Definition ClearExpiredInflight (s : Store) (expiry : Z)
  : Store * option error :=
  match db s with
  | None => (s, Some ErrDBNotOpen)
  | Some d =>
      let '(d1, v, err) := Find T KInflight [] d in
      match fatal err with
      | Some e => (setDB s (Some d1), Some e)
      | None =>
          let '(d2, r) := sweep expiry v d1 in
          (setDB s (Some d2), r)
      end
  end.

End bolt.

Import bolt.

(** ** Notions used by the theorems *)

(** The four buckets of a database: what it stores, apart from the
    engine's own state. *)
Definition contents (d : DB)
  : gmap string ServerInfo * gmap string Client
    * gmap string Subscription * gmap string Message :=
  (ServerInfoBucket d, ClientBucket d, SubscriptionBucket d, MessageBucket d).

(** The next transaction goes through: the file is open and the
    environment does not fail it. *)
Definition healthy (d : DB) : bool :=
  opened d && match faults d with Some _ :: _ => false | _ => true end.

(** Every record sits under its own id; storm keeps this by storing each
    struct under the value of its id field. *)
Definition wfB {A} `{Struct A} (b : gmap string A) : Prop :=
  ∀ k r, b !! k = Some r → structID r = k.

Definition wf (d : DB) : Prop :=
  wfB (ServerInfoBucket d) ∧ wfB (ClientBucket d)
  ∧ wfB (SubscriptionBucket d) ∧ wfB (MessageBucket d).

(** A store whose database, if it has one, is well formed. *)
Definition store_wf (s : Store) : Prop := ∀ d, db s = Some d → wf d.



(** The ids the sweep deletes among the records it was given. *)
Definition swept (expiry : Z) (v : list Message) : list string :=
  ID <$> filter (λ m, stale expiry m = true) v.

(** Writing with [W] and reading back with [R] is an upsert on store
    [s]: after two writes of records with the same id that both went
    through, the bucket holds the second record under that id, every
    read that goes through returns exactly one record with that id, the
    second one, and a read does go through when the engine lets it. *)
Definition upserts {A} `{Struct A} (W : Store → A → Store * option error)
    (R : Store → Store * list A * option error)
    (fieldT : A → string) (kind : string) (s : Store) : Prop :=
  ∀ r1 r2 s1 s2,
    structID r1 = structID r2 → fieldT r2 = kind →
    W s r1 = (s1, None) → W s1 r2 = (s2, None) →
    ∃ d2, db s2 = Some d2
      ∧ bucket d2 !! structID r2 = Some r2
      ∧ (∀ s3 v, R s2 = (s3, v, None) →
                 filter (λ r, structID r = structID r2) v = [r2])
      ∧ (healthy d2 = true → ∃ s3 v, R s2 = (s3, v, None)).

(** A write with [W] goes through whenever the store is open, the
    engine lets the next transaction through and the record has an id:
    it returns no error, and the record is then stored under its id. *)
Definition stores {A} `{Struct A}
    (W : Store → A → Store * option error) : Prop :=
  ∀ s d r, db s = Some d → healthy d = true → structID r ≠ "" →
    ∃ d1, W s r = (setDB s (Some d1), None)
      ∧ bucket d1 !! structID r = Some r.

(** On store [s] with database [d], when the engine fails no
    transaction: two writes with [W] of records with one id both return
    no error, the read with [R] that follows returns no error, and what
    it returns holds exactly one record with that id, the second one. *)
Definition overwrites {A} `{Struct A}
    (W : Store → A → Store * option error)
    (R : Store → Store * list A * option error)
    (fieldT : A → string) (kind : string) (s : Store) (d : DB) : Prop :=
  opened d = true → faults d = [] →
  ∀ r1 r2, structID r1 = structID r2 → structID r2 ≠ "" →
    fieldT r2 = kind →
    ∃ s1 s2 s3 v, W s r1 = (s1, None) ∧ W s1 r2 = (s2, None)
      ∧ R s2 = (s3, v, None)
      ∧ filter (λ r, structID r = structID r2) v = [r2].

(** Deleting with [D] an id that the bucket of [A] does not hold, on
    store [s] with database [d]: the call returns an error, which is the
    engine's not-found when the transaction itself goes through; what is
    stored stays as it is; and no later read with [R] returns a record
    with that id. *)
Definition absent_delete (A : Type) `{Struct A}
    (D : Store → string → Store * option error)
    (R : Store → Store * list A * option error)
    (s : Store) (d : DB) (id : string) : Prop :=
  bucket (A:=A) d !! id = None →
  ∃ d' e, D s id = (setDB s (Some d'), Some e)
    ∧ contents d' = contents d
    ∧ (healthy d = true → e = ErrNotFound)
    ∧ id ∉ structID <$> (R (setDB s (Some d'))).1.2.


(** ** Sample stores *)

(** A store built by New and never opened. *)
Definition unopened : Store := New "" None.

(** The same store after Open created an empty database file. *)
Definition fresh : Store := (Open (λ _ _, inl emptyDB) unopened).1.

(** An in-flight and a retained message, and an open store whose one
    Message bucket holds both. *)
Definition inflight7 : Message :=
  mkMessage "if_c1_7" KInflight [] "a/b" 1 7 100.
Definition retained_ab : Message :=
  mkMessage "ret_a/b" KRetained [] "a/b" 0 0 50.

Definition mixedDB : DB :=
  mkDB true [] ∅ ∅ ∅
       (<["if_c1_7" := inflight7]> (<["ret_a/b" := retained_ab]> ∅)).
Definition mixed : Store := setDB unopened (Some mixedDB).

(** An open store with four in-flight messages, created at 0, 100, 200
    and 300, and one retained message of unknown age. *)
Definition inflightAt (id : string) (created : Z) : Message :=
  mkMessage id KInflight [] "a/b" 1 1 created.

Definition fourDB : DB :=
  mkDB true [] ∅ ∅ ∅
       (<["m0" := inflightAt "m0" 0]>
        (<["m100" := inflightAt "m100" 100]>
         (<["m200" := inflightAt "m200" 200]>
          (<["m300" := inflightAt "m300" 300]>
           (<["r0" := mkMessage "r0" KRetained [] "a/b" 0 0 0]> ∅))))).
Definition four : Store := setDB unopened (Some fourDB).

(** The store of four in-flight messages on a disk that fails the third
    transaction. *)
Definition faultyDB : DB := setFaults [None; None; Some "disk full"] fourDB.
Definition faulty : Store := setDB unopened (Some faultyDB).

(** Two versions of one in-flight message. *)
Definition first_try : Message :=
  mkMessage "if_c1_9" KInflight [Byte.x61] "a/b" 1 9 100.
Definition second_try : Message :=
  mkMessage "if_c1_9" KInflight [Byte.x62] "a/b" 1 9 160.

(** ** Notions used by the further properties *)

(** The buckets other than the one of a given struct type. *)
Definition besidesServerInfo (d : DB) :=
  (ClientBucket d, SubscriptionBucket d, MessageBucket d).
Definition besidesClient (d : DB) :=
  (ServerInfoBucket d, SubscriptionBucket d, MessageBucket d).
Definition besidesSubscription (d : DB) :=
  (ServerInfoBucket d, ClientBucket d, MessageBucket d).
Definition besidesMessage (d : DB) :=
  (ServerInfoBucket d, ClientBucket d, SubscriptionBucket d).

(** What writing [v] with [W] does to store [s] with database [d]: the
    handle stays open on some database whose bucket of [A] agrees with
    the old one on every other id, and holds [v] under its id when the
    write reports no error. *)
Definition write_effect (A : Type) `{Struct A}
    (W : Store → A → Store * option error)
    (s : Store) (d : DB) (v : A) : Prop :=
  ∃ d', (W s v).1 = setDB s (Some d')
    ∧ (∀ k, k ≠ structID v → bucket (A:=A) d' !! k = bucket d !! k)
    ∧ ((W s v).2 = None → bucket (A:=A) d' !! structID v = Some v).

(** An operation result that leaves the stored records as they were
    whenever it is an error. *)
Definition atomic (d : DB) (res : Store * option error) : Prop :=
  res.2 ≠ None → ∀ d', db res.1 = Some d' → contents d' = contents d.

(** Writing with [W] and reading back with [R]: after one write of [r]
    that went through, a read that goes through returns exactly one
    record with [r]'s id, [r] itself; and the read goes through when
    the engine lets it. *)
Definition reads_back {A} `{Struct A} (W : Store → A → Store * option error)
    (R : Store → Store * list A * option error)
    (fieldT : A → string) (kind : string) (s : Store) : Prop :=
  ∀ r s1, fieldT r = kind → W s r = (s1, None) →
    ∃ d1, db s1 = Some d1
      ∧ (∀ s2 v, R s1 = (s2, v, None) →
                 filter (λ r', structID r' = structID r) v = [r])
      ∧ (healthy d1 = true → ∃ s2 v, R s1 = (s2, v, None) ∧ r ∈ v).

(** A read with [R] of store [s] with database [d] returns, when the
    next transaction goes through, no error and exactly the records of
    the bucket of [A] whose tag is [kind], each once. *)
Definition reads_all {A} `{Struct A}
    (R : Store → Store * list A * option error)
    (fieldT : A → string) (kind : string) (s : Store) (d : DB) : Prop :=
  (R s).2 = None
  ∧ (∀ r, r ∈ (R s).1.2 ↔
          fieldT r = kind ∧ bucket (A:=A) d !! structID r = Some r)
  ∧ NoDup (structID <$> (R s).1.2).

(** A write with [W] followed by a delete with [D] of the same id: the
    delete goes through when the engine lets it, and the bucket is the
    old one without that id. *)
Definition write_then_delete (A : Type) `{Struct A}
    (W : Store → A → Store * option error)
    (D : Store → string → Store * option error)
    (s : Store) (d : DB) : Prop :=
  ∀ v s1 d1, W s v = (s1, None) → db s1 = Some d1 → healthy d1 = true →
    ∃ d2, D s1 (structID v) = (setDB s1 (Some d2), None)
      ∧ bucket (A:=A) d2 = delete (structID v) (bucket d)
      ∧ (bucket (A:=A) d !! structID v = None → bucket (A:=A) d2 = bucket d).

(** A delete with [D] that went through, followed by a second delete of
    the same id: the engine answers not-found and nothing changes; and
    no read with [R] after the first delete returns that id. *)
Definition delete_then (A : Type) `{Struct A}
    (D : Store → string → Store * option error)
    (R : Store → Store * list A * option error)
    (s : Store) : Prop :=
  ∀ id s1 d1, D s id = (s1, None) → db s1 = Some d1 →
    (id ∉ structID <$> (R s1).1.2)
    ∧ (healthy d1 = true →
       ∃ d2, D s1 id = (setDB s1 (Some d2), Some ErrNotFound)
         ∧ contents d2 = contents d1).

(** A read with [R] of store [s] with database [d] leaves the handle
    open on a database that stores what [d] stores. *)
Definition read_only {V} (R : Store → Store * V * option error)
    (s : Store) (d : DB) : Prop :=
  ∃ d', (R s).1.1 = setDB s (Some d') ∧ contents d' = contents d.



(** An in-flight record that the sweep with the given expiry deletes. *)
Definition expired (expiry : Z) (m : Message) : Prop :=
  T m = KInflight ∧ (Created m < expiry ∨ Created m = 0).


(** The lens laws of a struct type's bucket. *)
Class StructLaws (A : Type) `{Struct A} := {
  bucket_withBucket b d : bucket (withBucket b d) = b;
  opened_withBucket b d : opened (withBucket b d) = opened d;
  faults_withBucket b d : faults (withBucket b d) = faults d;
  bucket_setFaults fs d : bucket (setFaults fs d) = bucket d;
  bucket_contents d d' : contents d' = contents d → bucket d' = bucket d;
  structID_withID id : structID (withID id) = id;
  wf_bucket d : wf d → wfB (bucket d);
  wf_withBucket b d : wf d → wfB b → wf (withBucket b d);
}.

(** ** Facts about the engine *)

Ltac struct_laws :=
  constructor; simpl;
  [ reflexivity | reflexivity | reflexivity | reflexivity
  | intros d d' [= ? ? ? ?]; assumption
  | reflexivity
  | intros d (? & ? & ? & ?); assumption
  | intros b d (? & ? & ? & ?) ?; repeat split; assumption ].

#[global] Instance ServerInfo_Laws : StructLaws ServerInfo.
Proof. struct_laws. Qed.
#[global] Instance Client_Laws : StructLaws Client.
Proof. struct_laws. Qed.
#[global] Instance Subscription_Laws : StructLaws Subscription.
Proof. struct_laws. Qed.
#[global] Instance Message_Laws : StructLaws Message.
Proof. struct_laws. Qed.

Lemma wf_emptyDB : wf emptyDB.
Proof.
  repeat split; intros k r Hk; simpl in Hk; by rewrite lookup_empty in Hk.
Qed.

Lemma begin_contents d d' r : begin d = (d', r) → contents d' = contents d.
Proof.
  unfold begin. destruct (opened d); [destruct (faults d)|];
    intros [= <- <-]; reflexivity.
Qed.

Lemma begin_opened d d' r : begin d = (d', r) → opened d' = opened d.
Proof.
  unfold begin. destruct (opened d) eqn:E; [destruct (faults d)|];
    intros [= <- <-]; simpl; congruence.
Qed.

Lemma wf_contents d d' : contents d' = contents d → wf d → wf d'.
Proof.
  intros [= C1 C2 C3 C4]. unfold wf. by rewrite C1, C2, C3, C4.
Qed.

Lemma begin_wf d d' r : begin d = (d', r) → wf d → wf d'.
Proof.
  intros Hb. apply begin_contents in Hb. unfold contents in Hb.
  injection Hb as H1 H2 H3 H4. unfold wf. by rewrite H1, H2, H3, H4.
Qed.

Lemma begin_healthy d : healthy d = true → ∃ d', begin d = (d', None).
Proof.
  unfold healthy, begin. destruct (opened d); [|done].
  destruct (faults d) as [|[msg|] fs]; simpl; [eauto|done|eauto].
Qed.

Lemma begin_ok d d' : begin d = (d', None) → opened d = true.
Proof. unfold begin. by destruct (opened d). Qed.

Section EngineOps.
Context {A : Type} `{StructLaws A}.

Lemma begin_bucket d d' r : begin d = (d', r) → bucket d' = bucket d.
Proof.
  unfold begin. destruct (opened d); [destruct (faults d)|];
    intros [= <- <-]; try reflexivity.
  apply bucket_setFaults.
Qed.

Lemma Save_inv (v : A) d d' r :
  Save v d = (d', r) →
  match r with
  | None => structID v ≠ "" ∧ healthy d = true
            ∧ bucket d' = <[structID v := v]> (bucket d)
  | Some _ => contents d' = contents d
  end.
Proof.
  unfold Save. destruct (String.eqb_spec (structID v) "") as [E|E].
  { intros [= <- <-]. reflexivity. }
  destruct (begin d) as [d1 [e|]] eqn:Hb.
  - intros [= <- <-]. by eapply begin_contents.
  - intros [= <- <-]. split; [done|]. split.
    + unfold healthy. rewrite (begin_ok _ _ Hb). unfold begin in Hb.
      rewrite (begin_ok _ _ Hb) in Hb.
      destruct (faults d) as [|[m|] fs]; simpl in *; congruence.
    + rewrite bucket_withBucket. by rewrite (begin_bucket _ _ _ Hb).
Qed.

Lemma DeleteStruct_inv (v : A) d d' r :
  DeleteStruct v d = (d', r) →
  match r with
  | None => healthy d = true ∧ is_Some (bucket d !! structID v)
            ∧ bucket d' = delete (structID v) (bucket d)
  | Some e => contents d' = contents d
              ∧ (healthy d = true →
                 e = ErrNotFound ∧ bucket d !! structID v = None)
  end.
Proof.
  unfold DeleteStruct. destruct (begin d) as [d1 [e|]] eqn:Hb.
  - intros [= <- <-]. split; [by eapply begin_contents|].
    intros Hh. destruct (begin_healthy _ Hh) as [d2 Hd2]. congruence.
  - assert (Hh : healthy d = true).
    { unfold healthy. rewrite (begin_ok _ _ Hb). unfold begin in Hb.
      rewrite (begin_ok _ _ Hb) in Hb.
      destruct (faults d) as [|[m|] fs]; simpl in *; congruence. }
    cbv beta iota. rewrite (begin_bucket _ _ _ Hb).
    destruct (bucket d !! structID v) as [r0|] eqn:Hl.
    + intros [= <- <-]. rewrite bucket_withBucket. eauto.
    + intros [= <- <-]. split; [by eapply begin_contents|]. done.
Qed.

Lemma elem_of_matching (field : A → string) value d (r : A) :
  r ∈ matching field value d ↔
  field r = value ∧ ∃ k, bucket d !! k = Some r.
Proof.
  unfold matching. rewrite list_elem_of_filter, list_elem_of_fmap.
  split.
  - intros [Hf [[k r'] [-> Hin]]]. split; [done|].
    exists k. by apply elem_of_map_to_list in Hin.
  - intros [Hf [k Hk]]. split; [done|].
    exists (k, r). split; [done|]. by apply elem_of_map_to_list.
Qed.

(** What a read sees once not-found has been let through: the engine's
    answer is the matching records, and nothing was written. *)
Lemma Find_inv (field : A → string) value d d' (v : list A) err :
  Find field value [] d = (d', v, err) →
  contents d' = contents d
  ∧ match fatal err with
    | None => healthy d = true ∧ v = matching field value d
              ∧ bucket d' = bucket d
    | Some _ => v = []
    end.
Proof.
  unfold Find. destruct (begin d) as [d1 [e|]] eqn:Hb.
  - intros [= <- <- <-]. split; [by eapply begin_contents|].
    unfold begin in Hb. destruct (opened d); [|by injection Hb as _ <-].
    destruct (faults d) as [|[m|] fs]; simplify_eq/=. done.
  - assert (Hh : healthy d = true).
    { unfold healthy. rewrite (begin_ok _ _ Hb). unfold begin in Hb.
      rewrite (begin_ok _ _ Hb) in Hb.
      destruct (faults d) as [|[m|] fs]; simpl in *; congruence. }
    assert (Hm : matching field value d1 = matching field value d).
    { unfold matching. by rewrite (begin_bucket _ _ _ Hb). }
    cbv beta iota. rewrite Hm. destruct (matching field value d) eqn:Hr.
    + intros [= <- <- <-]. split; [by eapply begin_contents|]. simpl.
      by rewrite (begin_bucket _ _ _ Hb).
    + intros [= <- <- <-]. split; [by eapply begin_contents|]. simpl.
      by rewrite (begin_bucket _ _ _ Hb).
Qed.

Lemma Save_wf (v : A) d d' r : Save v d = (d', r) → wf d → wf d'.
Proof.
  unfold Save. destruct (String.eqb (structID v) ""); [by intros [= <- _]|].
  destruct (begin d) as [d1 [e|]] eqn:Hb; intros [= <- _] Hwf;
    [by eapply begin_wf|].
  apply wf_withBucket; [by eapply begin_wf|].
  intros k r0. destruct (decide (structID v = k)) as [<-|Hne].
  - rewrite lookup_insert_eq. by intros [= <-].
  - rewrite lookup_insert_ne by done.
    apply (wf_bucket d1). by eapply begin_wf.
Qed.

Lemma DeleteStruct_wf (v : A) d d' r :
  DeleteStruct v d = (d', r) → wf d → wf d'.
Proof.
  unfold DeleteStruct. destruct (begin d) as [d1 [e|]] eqn:Hb;
    [intros [= <- _] Hwf; by eapply begin_wf|].
  intros HD Hwf. pose proof (begin_wf _ _ _ Hb Hwf) as Hwf1.
  destruct (bucket d1 !! structID v); injection HD as <- _; [|done].
  apply wf_withBucket; [done|]. intros k r0 Hl.
  apply (wf_bucket d1 Hwf1).
  destruct (decide (structID v = k)) as [<-|Hne].
  - by rewrite lookup_delete_eq in Hl.
  - by rewrite lookup_delete_ne in Hl.
Qed.

End EngineOps.

(** ** Construction and configuration *)

(** C9: New substitutes the default file name for an empty path and for
    the current-directory path ".", and options with a lock-wait
    timeout of exactly 250 milliseconds for nil options; a path or
    options supplied explicitly are used as they are. *)
Theorem New_defaults (p : string) (o : option Options) :
  (p = "" ∨ p = "." → path (New p o) = defaultPath)
  ∧ (p ≠ "" → p ≠ "." → path (New p o) = p)
  ∧ (o = None →
     ∃ o', opts (New p o) = Some o' ∧ Timeout o' = 250 * 1000000)
  ∧ (∀ o', o = Some o' → opts (New p o) = Some o').
Proof.
  unfold New; simpl. repeat split.
  - intros [-> | ->]; reflexivity.
  - intros H1 H2.
    destruct (String.eqb_spec p "") as [E1|E1]; [done|].
    destruct (String.eqb_spec p ".") as [E2|E2]; [done|]. reflexivity.
  - intros ->. eexists. split; reflexivity.
  - intros o' ->. reflexivity.
Qed.

Lemma New_defaults_witness :
  path (New "." None) = "mochi.db"
  ∧ path (New "data/broker.db" None) = "data/broker.db"
  ∧ (∃ o', opts (New "" None) = Some o' ∧ Timeout o' = 250000000)
  ∧ opts (New "" (Some (mkOptions 1000000000 false true 0 0)))
    = Some (mkOptions 1000000000 false true 0 0).
Proof.
  split; [|split; [|split]].
  - apply (proj1 (New_defaults "." None)). right; reflexivity.
  - apply (proj1 (proj2 (New_defaults "data/broker.db" None)));
      intros E; discriminate E.
  - apply (proj1 (proj2 (proj2 (New_defaults "" None)))). reflexivity.
  - apply (proj2 (proj2 (proj2
      (New_defaults "" (Some (mkOptions 1000000000 false true 0 0)))))).
    reflexivity.
Defined.








(** ** Handles that are not open *)

Lemma write_unopened {A} `{Struct A} s (v : A) :
  db s = None → write s v = (s, Some ErrDBNotOpen).
Proof. unfold write. by intros ->. Qed.

Lemma remove_unopened {A} `{Struct A} s id :
  db s = None → remove A s id = (s, Some ErrDBNotOpen).
Proof. unfold remove. by intros ->. Qed.

Lemma readKind_unopened {A} `{Struct A} (fieldT : A → string) kind s :
  db s = None → readKind fieldT kind s = (s, [], Some ErrDBNotOpen).
Proof. unfold readKind. by intros ->. Qed.

Lemma write_closed {A} `{Struct A} s s' (v : A) :
  Close s = Closed s' →
  (write s' v).2
  = Some (if String.eqb (structID v) "" then ErrZeroID
          else ErrDatabaseNotOpen).
Proof.
  unfold Close, write. destruct (db s) as [d|]; [|done].
  intros [= <-]. simpl. unfold Save.
  destruct (String.eqb (structID v) ""); reflexivity.
Qed.

Lemma remove_closed {A} `{Struct A} s s' id :
  Close s = Closed s' → (remove A s' id).2 = Some ErrDatabaseNotOpen.
Proof.
  unfold Close, remove. destruct (db s) as [d|]; [|done].
  intros [= <-]. reflexivity.
Qed.

Lemma readKind_closed {A} `{Struct A} (fieldT : A → string) kind s s' :
  Close s = Closed s' →
  (readKind fieldT kind s').1.2 = []
  ∧ (readKind fieldT kind s').2 = Some ErrDatabaseNotOpen.
Proof.
  unfold Close, readKind. destruct (db s) as [d|]; [|done].
  intros [= <-]. split; reflexivity.
Qed.

(** C7, as the code has it: on a handle that was never opened (its db is
    nil) every write, delete and read and the sweep return ErrDBNotOpen
    and leave the store as it is; on a handle that has been closed they
    return an error as well, the engine's own: ErrDatabaseNotOpen (or
    ErrZeroID for a write of a record with an empty id). *)
Theorem not_open_is_an_error (s : Store) :
  (db s = None →
     (∀ v, WriteServerInfo s v = (s, Some ErrDBNotOpen))
     ∧ (∀ v, WriteSubscription s v = (s, Some ErrDBNotOpen))
     ∧ (∀ v, WriteInflight s v = (s, Some ErrDBNotOpen))
     ∧ (∀ v, WriteRetained s v = (s, Some ErrDBNotOpen))
     ∧ (∀ v, WriteClient s v = (s, Some ErrDBNotOpen))
     ∧ (∀ id, DeleteSubscription s id = (s, Some ErrDBNotOpen))
     ∧ (∀ id, DeleteClient s id = (s, Some ErrDBNotOpen))
     ∧ (∀ id, DeleteInflight s id = (s, Some ErrDBNotOpen))
     ∧ (∀ id, DeleteRetained s id = (s, Some ErrDBNotOpen))
     ∧ ReadSubscriptions s = (s, [], Some ErrDBNotOpen)
     ∧ ReadClients s = (s, [], Some ErrDBNotOpen)
     ∧ ReadInflight s = (s, [], Some ErrDBNotOpen)
     ∧ ReadRetained s = (s, [], Some ErrDBNotOpen)
     ∧ ReadServerInfo s = (s, zeroServerInfo, Some ErrDBNotOpen)
     ∧ (∀ expiry, ClearExpiredInflight s expiry = (s, Some ErrDBNotOpen)))
  ∧ (∀ s', Close s = Closed s' →
     (∀ v, (WriteServerInfo s' v).2
           = Some (if String.eqb (si_ID v) "" then ErrZeroID
                   else ErrDatabaseNotOpen))
     ∧ (∀ v, (WriteSubscription s' v).2
             = Some (if String.eqb (sub_ID v) "" then ErrZeroID
                     else ErrDatabaseNotOpen))
     ∧ (∀ v, (WriteInflight s' v).2
             = Some (if String.eqb (ID v) "" then ErrZeroID
                     else ErrDatabaseNotOpen))
     ∧ (∀ v, (WriteRetained s' v).2
             = Some (if String.eqb (ID v) "" then ErrZeroID
                     else ErrDatabaseNotOpen))
     ∧ (∀ v, (WriteClient s' v).2
             = Some (if String.eqb (cl_ID v) "" then ErrZeroID
                     else ErrDatabaseNotOpen))
     ∧ (∀ id, (DeleteSubscription s' id).2 = Some ErrDatabaseNotOpen)
     ∧ (∀ id, (DeleteClient s' id).2 = Some ErrDatabaseNotOpen)
     ∧ (∀ id, (DeleteInflight s' id).2 = Some ErrDatabaseNotOpen)
     ∧ (∀ id, (DeleteRetained s' id).2 = Some ErrDatabaseNotOpen)
     ∧ (ReadSubscriptions s').2 = Some ErrDatabaseNotOpen
     ∧ (ReadClients s').2 = Some ErrDatabaseNotOpen
     ∧ (ReadInflight s').2 = Some ErrDatabaseNotOpen
     ∧ (ReadRetained s').2 = Some ErrDatabaseNotOpen
     ∧ (ReadServerInfo s').2 = Some ErrDatabaseNotOpen
     ∧ (∀ expiry,
          (ClearExpiredInflight s' expiry).2 = Some ErrDatabaseNotOpen)).
Proof.
  split.
  - intros Hnil.
    repeat match goal with |- _ ∧ _ => split end; intros;
      try exact (write_unopened s _ Hnil);
      try exact (remove_unopened s _ Hnil);
      try exact (readKind_unopened _ _ s Hnil).
    + unfold ReadServerInfo. by rewrite Hnil.
    + unfold ClearExpiredInflight. by rewrite Hnil.
  - intros s' Hc.
    repeat match goal with |- _ ∧ _ => split end; intros;
      try exact (write_closed s s' _ Hc);
      try exact (remove_closed s s' _ Hc);
      try exact (proj2 (readKind_closed _ _ s s' Hc)).
    + unfold Close in Hc. destruct (db s); [|done].
      injection Hc as <-. reflexivity.
    + unfold Close in Hc. destruct (db s); [|done].
      injection Hc as <-. reflexivity.
Qed.

Lemma not_open_is_an_error_witness :
  WriteInflight unopened (mkMessage "m1" KInflight [] "a/b" 1 7 100)
  = (unopened, Some ErrDBNotOpen)
  ∧ ReadRetained unopened = (unopened, [], Some ErrDBNotOpen)
  ∧ (DeleteClient (setDB fresh (Some (storm.Close emptyDB))) "c1").2
    = Some ErrDatabaseNotOpen.
Proof.
  destruct (not_open_is_an_error unopened) as [Hnil _].
  destruct (not_open_is_an_error fresh) as [_ Hclosed].
  specialize (Hnil eq_refl).
  specialize (Hclosed (setDB fresh (Some (storm.Close emptyDB))) eq_refl).
  split; [apply Hnil|]. split; [apply Hnil|]. apply Hclosed.
Defined.

(** C7 as stated fails: Close has no nil check and no error result, so
    on a handle that was never opened it dereferences nil; and a store
    that was opened and closed answers with the engine's error, which is
    not ErrDBNotOpen. *)
Lemma Close_unopened_counterexample :
  db unopened = None
  ∧ Close unopened = NilDereference
  ∧ ∃ s', Close fresh = Closed s'
          ∧ (WriteClient s' (mkClient "c1" KClient 4 true [])).2
            = Some ErrDatabaseNotOpen
          ∧ Some ErrDatabaseNotOpen ≠ Some ErrDBNotOpen.
Proof.
  split; [reflexivity|]. split; [reflexivity|].
  eexists. split; [reflexivity|]. split; [reflexivity|]. discriminate.
Qed.


(** ** Reads *)

Lemma fatal_not_found err : fatal err ≠ Some ErrNotFound.
Proof. by destruct err as [[]|]. Qed.

Lemma readKind_inv {A} `{StructLaws A} (fieldT : A → string) kind s d :
  db s = Some d →
  ∃ d', contents d' = contents d
        ∧ (readKind fieldT kind s).1.1 = setDB s (Some d')
        ∧ match (readKind fieldT kind s).2 with
          | None => healthy d = true
                    ∧ (readKind fieldT kind s).1.2 = matching fieldT kind d
          | Some e => (readKind fieldT kind s).1.2 = [] ∧ e ≠ ErrNotFound
          end.
Proof.
  intros Hd. unfold readKind. rewrite Hd.
  destruct (Find fieldT kind [] d) as [[d' v] err] eqn:HF.
  apply Find_inv in HF as [Hc HF]. exists d'. split; [done|].
  pose proof (fatal_not_found err) as Hnf.
  destruct (fatal err) as [e|]; simpl.
  - split; [done|]. split; [done|]. congruence.
  - split; [done|]. by destruct HF as (? & ? & ?).
Qed.

(** Whatever a collection read returns carries the kind asked for. *)
Lemma readKind_sound {A} `{StructLaws A} (fieldT : A → string) kind s :
  Forall (λ r, fieldT r = kind) (readKind fieldT kind s).1.2.
Proof.
  destruct (db s) as [d|] eqn:Hd.
  - destruct (readKind_inv fieldT kind s d Hd) as (d' & _ & _ & Hr).
    destruct ((readKind fieldT kind s).2).
    + destruct Hr as [-> _]. constructor.
    + destruct Hr as [_ ->]. apply Forall_forall. intros r Hr.
      by apply elem_of_matching in Hr as [? _].
  - rewrite (readKind_unopened _ _ _ Hd). constructor.
Qed.

(** C4: every record returned by the Retained-kind read carries the
    Retained tag and every record returned by the Inflight-kind read
    carries the Inflight tag, so neither read ever returns a record of
    the other kind, although both kinds live in the one Message bucket. *)
Theorem reads_respect_kind (s : Store) :
  Forall (λ m, T m = KRetained ∧ T m ≠ KInflight) (ReadRetained s).1.2
  ∧ Forall (λ m, T m = KInflight ∧ T m ≠ KRetained) (ReadInflight s).1.2.
Proof.
  split.
  - eapply Forall_impl; [apply (readKind_sound T KRetained s)|].
    intros m ->. done.
  - eapply Forall_impl; [apply (readKind_sound T KInflight s)|].
    intros m ->. done.
Qed.

(** The two reads on a store whose Message bucket holds one record of
    each kind. *)
Example reads_on_mixed :
  (ReadInflight mixed).1.2 = [inflight7]
  ∧ (ReadRetained mixed).1.2 = [retained_ab].
Proof. split; vm_compute; reflexivity. Qed.

Lemma Find_not_found {A} `{Struct A} (field : A → string) value d d' to :
  Find field value [] d = (d', to, Some ErrNotFound) → to = [].
Proof.
  unfold Find. destruct (begin d) as [d1 [e|]]; [by intros [= _ <- _]|].
  destruct (matching field value d1); by intros [= _ <-].
Qed.

Lemma readKind_not_found {A} `{Struct A} (fieldT : A → string) kind
    s d d' to :
  db s = Some d →
  Find fieldT kind [] d = (d', to, Some ErrNotFound) →
  readKind fieldT kind s = (setDB s (Some d'), [], None).
Proof.
  intros Hd HF. unfold readKind. rewrite Hd, HF. simpl.
  by rewrite (Find_not_found _ _ _ _ _ HF).
Qed.

(** C5: when the engine reports not-found, a collection read returns the
    empty sequence and no error and ReadServerInfo returns the zero
    record and no error; so it is on a store that was just opened on an
    empty file; and no read ever hands not-found to its caller. *)
Theorem not_found_is_not_an_error (s : Store) (d d' : DB) :
  db s = Some d →
  (∀ to, Find sub_T KSubscription [] d = (d', to, Some ErrNotFound) →
         ReadSubscriptions s = (setDB s (Some d'), [], None))
  ∧ (∀ to, Find cl_T KClient [] d = (d', to, Some ErrNotFound) →
           ReadClients s = (setDB s (Some d'), [], None))
  ∧ (∀ to, Find T KInflight [] d = (d', to, Some ErrNotFound) →
           ReadInflight s = (setDB s (Some d'), [], None))
  ∧ (∀ to, Find T KRetained [] d = (d', to, Some ErrNotFound) →
           ReadRetained s = (setDB s (Some d'), [], None))
  ∧ (∀ to, One si_ID KServerInfo zeroServerInfo d
           = (d', to, Some ErrNotFound) →
           ReadServerInfo s = (setDB s (Some d'), zeroServerInfo, None))
  ∧ (∀ p o, let s0 := (Open (λ _ _, inl emptyDB) (New p o)).1 in
            ReadServerInfo s0 = (s0, zeroServerInfo, None))
  ∧ (ReadSubscriptions s).2 ≠ Some ErrNotFound
  ∧ (ReadClients s).2 ≠ Some ErrNotFound
  ∧ (ReadInflight s).2 ≠ Some ErrNotFound
  ∧ (ReadRetained s).2 ≠ Some ErrNotFound
  ∧ (ReadServerInfo s).2 ≠ Some ErrNotFound.
Proof.
  intros Hd.
  assert (Hread : ∀ A (HA : Struct A) (f : A → string) k,
             (readKind f k s).2 ≠ Some ErrNotFound).
  { intros A HA f k. unfold readKind. rewrite Hd.
    destruct (Find f k [] d) as [[d1 v] err].
    pose proof (fatal_not_found err). by destruct (fatal err). }
  repeat match goal with |- _ ∧ _ => split end; try apply Hread;
    try (intros to HF; by eapply readKind_not_found).
  - intros to HO. unfold ReadServerInfo. rewrite Hd, HO. simpl.
    unfold One in HO. destruct (begin d) as [d1 [e|]];
      [by injection HO as _ <- _|].
    destruct (matching si_ID KServerInfo d1); by injection HO as _ <-.
  - intros p o. reflexivity.
  - unfold ReadServerInfo. rewrite Hd.
    destruct (One _ _ _ d) as [[d1 v] err].
    pose proof (fatal_not_found err). by destruct (fatal err).
Qed.

Lemma not_found_is_not_an_error_witness :
  ReadInflight fresh = (fresh, [], None)
  ∧ ReadServerInfo fresh = (fresh, zeroServerInfo, None).
Proof.
  destruct (not_found_is_not_an_error fresh emptyDB emptyDB eq_refl)
    as (_ & _ & Hi & _ & Hs & _).
  split; [exact (Hi [] eq_refl) | exact (Hs zeroServerInfo eq_refl)].
Defined.


(** ** The expiry sweep *)

Lemma DeleteStruct_Message_frame (v : Message) d d' r :
  DeleteStruct v d = (d', r) →
  ServerInfoBucket d' = ServerInfoBucket d
  ∧ ClientBucket d' = ClientBucket d
  ∧ SubscriptionBucket d' = SubscriptionBucket d.
Proof.
  unfold DeleteStruct. destruct (begin d) as [d1 e] eqn:Hb.
  apply begin_contents in Hb. injection Hb as H1 H2 H3 _.
  destruct e; [by intros [= <- _]|]. simpl.
  destruct (MessageBucket d1 !! ID v); intros [= <- _]; done.
Qed.

Lemma sweep_app expiry (pre post : list Message) d :
  sweep expiry (pre ++ post)%list d
  = match sweep expiry pre d with
    | (d1, None) => sweep expiry post d1
    | (d1, Some err) => (d1, Some err)
    end.
Proof.
  revert d. induction pre as [|m pre IH]; intros d; simpl.
  - by destruct (sweep expiry post d).
  - destruct (stale expiry m); [|apply IH].
    destruct (DeleteStruct _ d) as [d' [e|]]; [done|apply IH].
Qed.

Lemma swept_cons expiry m v :
  swept expiry (m :: v)
  = if stale expiry m then ID m :: swept expiry v else swept expiry v.
Proof.
  unfold swept. destruct (stale expiry m) eqn:E.
  - by rewrite filter_cons_True.
  - rewrite filter_cons_False; [done|]. by rewrite E.
Qed.

(** A sweep that went through removed the stale records it was given
    and nothing else. *)
Lemma sweep_ok expiry v d d' :
  sweep expiry v d = (d', None) →
  (∀ k, MessageBucket d' !! k
        = if decide (k ∈ swept expiry v) then None
          else MessageBucket d !! k)
  ∧ ServerInfoBucket d' = ServerInfoBucket d
  ∧ ClientBucket d' = ClientBucket d
  ∧ SubscriptionBucket d' = SubscriptionBucket d.
Proof.
  revert d. induction v as [|m v IH]; intros d; cbn [sweep].
  { intros [= <-]. split; [|done]. intros k.
    destruct (decide (k ∈ swept expiry [])) as [Hin|]; [|done].
    by apply elem_of_nil in Hin. }
  rewrite swept_cons. destruct (stale expiry m).
  - destruct (DeleteStruct _ d) as [d1 [e|]] eqn:HD; [done|].
    intros Hs. apply IH in Hs as (Hk & H1 & H2 & H3).
    pose proof (DeleteStruct_Message_frame _ _ _ _ HD) as (F1 & F2 & F3).
    apply (DeleteStruct_inv (A:=Message)) in HD as (_ & _ & HD).
    simpl in HD. split; [|by rewrite H1, H2, H3].
    intros k. rewrite Hk, HD.
    destruct (decide (k ∈ swept expiry v)) as [Hin|Hin];
      destruct (decide (k ∈ ID m :: swept expiry v)) as [Hin'|Hin'];
      try done.
    + exfalso. apply Hin'. by apply list_elem_of_further.
    + apply elem_of_cons in Hin' as [->|?]; [|done].
      apply lookup_delete_eq.
    + apply lookup_delete_ne. intros <-. apply Hin', list_elem_of_here.
  - apply IH.
Qed.

Lemma stale_spec expiry m :
  stale expiry m = true ↔ Created m < expiry ∨ Created m = 0.
Proof.
  unfold stale. rewrite orb_true_iff, Z.ltb_lt, Z.eqb_eq. done.
Qed.

Lemma elem_of_swept expiry v k :
  k ∈ swept expiry v ↔ ∃ m, m ∈ v ∧ stale expiry m = true ∧ ID m = k.
Proof.
  unfold swept. rewrite list_elem_of_fmap. split.
  - intros (m & -> & Hm). apply list_elem_of_filter in Hm as [? ?]. eauto.
  - intros (m & Hm & Hs & <-). exists m. split; [done|].
    by apply list_elem_of_filter.
Qed.

(** What the sweep does when it reports no error, on the engine's
    state: the Message bucket loses the stale in-flight records and
    keeps the rest; the other buckets stay. *)
Lemma ClearExpiredInflight_ok s s' d expiry :
  db s = Some d →
  ClearExpiredInflight s expiry = (s', None) →
  ∃ d', s' = setDB s (Some d')
    ∧ healthy d = true
    ∧ (∀ k, MessageBucket d' !! k
            = if decide (k ∈ swept expiry (matching T KInflight d))
              then None else MessageBucket d !! k)
    ∧ ServerInfoBucket d' = ServerInfoBucket d
    ∧ ClientBucket d' = ClientBucket d
    ∧ SubscriptionBucket d' = SubscriptionBucket d.
Proof.
  intros Hd. unfold ClearExpiredInflight. rewrite Hd.
  destruct (Find T KInflight [] d) as [[d1 v] err] eqn:HF.
  apply Find_inv in HF as [Hc HF].
  destruct (fatal err); [done|]. destruct HF as (Hh & -> & Hb).
  destruct (sweep expiry _ d1) as [d2 r] eqn:Hs.
  intros [= <- ->]. exists d2. split; [done|]. split; [done|].
  apply sweep_ok in Hs as (Hk & H1 & H2 & H3).
  injection Hc as C1 C2 C3 C4. simpl in Hb.
  rewrite H1, H2, H3, C1, C2, C3. repeat split; try done.
  intros k. rewrite Hk, C4. done.
Qed.

(** C1: when ClearExpiredInflight(t) returns no error it has deleted
    exactly the Inflight-kind records whose created timestamp is below t
    or is 0; every other record, so every Inflight-kind record with
    created >= t and created != 0, is still stored as it was. *)
Theorem ClearExpiredInflight_exact (s s' : Store) (d : DB) (expiry : Z) :
  db s = Some d → wf d →
  ClearExpiredInflight s expiry = (s', None) →
  ∃ d', db s' = Some d'
    ∧ (∀ k m, MessageBucket d' !! k = Some m ↔
              MessageBucket d !! k = Some m
              ∧ ¬ (T m = KInflight
                   ∧ (Created m < expiry ∨ Created m = 0)))
    ∧ (∀ k m, MessageBucket d !! k = Some m → T m = KInflight →
              Created m >= expiry → Created m ≠ 0 →
              MessageBucket d' !! k = Some m)
    ∧ ServerInfoBucket d' = ServerInfoBucket d
    ∧ ClientBucket d' = ClientBucket d
    ∧ SubscriptionBucket d' = SubscriptionBucket d.
Proof.
  intros Hd Hwf Hrun.
  destruct (ClearExpiredInflight_ok _ _ _ _ Hd Hrun)
    as (d' & -> & _ & Hk & H1 & H2 & H3).
  exists d'. split; [done|].
  assert (Hiff : ∀ k m, MessageBucket d' !! k = Some m ↔
              MessageBucket d !! k = Some m
              ∧ ¬ (T m = KInflight
                   ∧ (Created m < expiry ∨ Created m = 0))).
  { intros k m. rewrite Hk.
    destruct Hwf as (_ & _ & _ & Hwf).
    destruct (decide (k ∈ _)) as [Hin|Hin].
    - split; [done|]. intros [Hl Hn]. exfalso. apply Hn.
      apply elem_of_swept in Hin as (m' & Hm' & Hst & <-).
      apply (elem_of_matching (A:=Message)) in Hm' as [HT [k' Hk']].
      pose proof (Hwf _ _ Hk') as Hid. simpl in Hid, Hk'. subst k'.
      rewrite Hk' in Hl. injection Hl as <-.
      split; [done|]. by apply stale_spec.
    - split; [|by intros [? _]]. intros Hl. split; [done|].
      intros [HT Hst]. apply Hin. apply elem_of_swept.
      exists m. split; [|split].
      + apply (elem_of_matching (A:=Message)). split; [done|]. by exists k.
      + by apply stale_spec.
      + by apply Hwf in Hl. }
  split; [exact Hiff|]. split; [|done].
  intros k m Hl HT Hge Hnz. apply Hiff. split; [done|].
  intros [_ [Hlt|Hz]]; [lia|done].
Qed.

Lemma wfB_decide {A} `{Struct A} (b : gmap string A) :
  bool_decide (map_Forall (λ k r, structID r = k) b) = true → wfB b.
Proof. intros Hb k r Hk. apply bool_decide_eq_true_1 in Hb. by apply Hb. Qed.

Lemma wf_fourDB : wf fourDB.
Proof. repeat split; apply wfB_decide; vm_compute; reflexivity. Qed.

Lemma ClearExpiredInflight_exact_witness :
  ∃ d', db (ClearExpiredInflight four 200).1 = Some d'
    ∧ (∀ k m, MessageBucket d' !! k = Some m ↔
              MessageBucket fourDB !! k = Some m
              ∧ ¬ (T m = KInflight ∧ (Created m < 200 ∨ Created m = 0)))
    ∧ (∀ k m, MessageBucket fourDB !! k = Some m → T m = KInflight →
              Created m >= 200 → Created m ≠ 0 →
              MessageBucket d' !! k = Some m)
    ∧ ServerInfoBucket d' = ServerInfoBucket fourDB
    ∧ ClientBucket d' = ClientBucket fourDB
    ∧ SubscriptionBucket d' = SubscriptionBucket fourDB.
Proof.
  apply (ClearExpiredInflight_exact four _ fourDB 200).
  - reflexivity.
  - exact wf_fourDB.
  - vm_compute. reflexivity.
Defined.

(** The spec's example: created = {0, 100, 200, 300} and t = 200 leave
    the records created at 200 and 300 (and the retained record, which
    the sweep never looks at). *)
Example sweep_four :
  (ClearExpiredInflight four 200).2 = None
  ∧ Created <$> (ReadInflight (ClearExpiredInflight four 200).1).1.2
    ≡ₚ [200; 300]
  ∧ ID <$> (ReadRetained (ClearExpiredInflight four 200).1).1.2 = ["r0"].
Proof.
  split; [vm_compute; reflexivity|]. split; [|vm_compute; reflexivity].
  replace (Created <$> _) with [300; 200] by (vm_compute; reflexivity).
  apply perm_swap.
Qed.

(** The records a scan returns have pairwise different ids. *)
Lemma matching_NoDup {A} `{StructLaws A} (field : A → string) value d :
  wfB (bucket d) → NoDup (structID <$> matching field value d).
Proof.
  intros Hwf. unfold matching.
  eapply sublist_NoDup; [|apply fmap_sublist, sublist_filter].
  rewrite <- list_fmap_compose.
  erewrite list_fmap_ext; [apply NoDup_fst_map_to_list|].
  intros i [k r] Hi. apply list_elem_of_lookup_2 in Hi.
  apply elem_of_map_to_list in Hi. simpl. by apply Hwf.
Qed.

Lemma swept_subseteq expiry v k : k ∈ swept expiry v → k ∈ ID <$> v.
Proof.
  intros (m & Hm & _ & <-)%elem_of_swept. apply list_elem_of_fmap. eauto.
Qed.

(** C6: when, in the sweep, the deletion of a stale record fails,
    ClearExpiredInflight stops there and returns that error: the store
    is left as the failed deletion left it, whatever records come after
    the failed one are not looked at, and all of them are still stored. *)
Theorem ClearExpiredInflight_fail_fast (s : Store) (d d1 d2 d3 : DB)
    (expiry : Z) (pre post : list Message) (m : Message) (e : error) :
  db s = Some d →
  Find T KInflight [] d = (d1, (pre ++ m :: post)%list, None) →
  sweep expiry pre d1 = (d2, None) →
  stale expiry m = true →
  DeleteStruct (withID (A:=Message) (ID m)) d2 = (d3, Some e) →
  ClearExpiredInflight s expiry = (setDB s (Some d3), Some e)
  ∧ contents d3 = contents d2
  ∧ (∀ post', sweep expiry (pre ++ m :: post')%list d1 = (d3, Some e))
  ∧ (wf d → ∀ m', m' ∈ post → MessageBucket d3 !! ID m' = Some m').
Proof.
  intros Hd HF Hpre Hst HD.
  assert (Hsw : ∀ post', sweep expiry (pre ++ m :: post')%list d1 = (d3, Some e)).
  { intros post'. rewrite sweep_app, Hpre. cbn [sweep]. by rewrite Hst, HD. }
  split; [|split; [|split]].
  - unfold ClearExpiredInflight. rewrite Hd, HF. simpl. by rewrite Hsw.
  - by apply (DeleteStruct_inv (A:=Message)) in HD as [? _].
  - exact Hsw.
  - intros Hwf m' Hm'.
    apply (DeleteStruct_inv (A:=Message)) in HD as [HD _].
    injection HD as _ _ _ ->.
    apply sweep_ok in Hpre as [Hk _]. rewrite Hk.
    apply Find_inv in HF as [Hc HF]. simpl in HF.
    destruct HF as (_ & Hv & _). injection Hc as _ _ _ ->.
    destruct Hwf as (_ & _ & _ & Hwf).
    pose proof (matching_NoDup T KInflight d Hwf) as Hnd.
    rewrite <- Hv in Hnd. simpl in Hnd. rewrite fmap_app in Hnd.
    apply NoDup_app in Hnd as (_ & Hdisj & _).
    rewrite decide_False.
    + assert (Hin : m' ∈ matching T KInflight d).
      { rewrite <- Hv. apply elem_of_app. right. by apply list_elem_of_further. }
      apply (elem_of_matching (A:=Message)) in Hin as [_ [k Hl]].
      pose proof (Hwf _ _ Hl) as Hid. simpl in Hid. by subst k.
    + intros Hin%swept_subseteq. apply (Hdisj _ Hin).
      rewrite fmap_cons. apply list_elem_of_further.
      apply list_elem_of_fmap. eauto.
Qed.

Lemma wf_faultyDB : wf faultyDB.
Proof. exact wf_fourDB. Qed.

Lemma ClearExpiredInflight_fail_fast_witness :
  let d1 := (Find T KInflight [] faultyDB).1.1 in
  let d2 := (sweep 400 [inflightAt "m300" 300] d1).1 in
  let d3 := (DeleteStruct (withID (A:=Message) "m100") d2).1 in
  ClearExpiredInflight faulty 400
  = (setDB faulty (Some d3), Some (ErrEngine "disk full"))
  ∧ contents d3 = contents d2
  ∧ (∀ post', sweep 400 ([inflightAt "m300" 300]
                          ++ inflightAt "m100" 100 :: post')%list d1
              = (d3, Some (ErrEngine "disk full")))
  ∧ (wf faultyDB →
     ∀ m', m' ∈ [inflightAt "m200" 200; inflightAt "m0" 0] →
           MessageBucket d3 !! ID m' = Some m').
Proof.
  intros d1 d2 d3.
  apply (ClearExpiredInflight_fail_fast faulty faultyDB d1 d2 d3 400
           [inflightAt "m300" 300]
           [inflightAt "m200" 200; inflightAt "m0" 0]
           (inflightAt "m100" 100) (ErrEngine "disk full"));
    vm_compute; reflexivity.
Defined.

(** After the failed sweep the record whose deletion failed and the
    stale records after it are all still there; only the one before it
    is gone. *)
Example sweep_faulty :
  (ClearExpiredInflight faulty 400).2 = Some (ErrEngine "disk full")
  ∧ ID <$> (ReadInflight (ClearExpiredInflight faulty 400).1).1.2
    ≡ₚ ["m0"; "m100"; "m200"].
Proof.
  split; [vm_compute; reflexivity|].
  replace (ID <$> _) with ["m100"; "m200"; "m0"] by (vm_compute; reflexivity).
  by rewrite (Permutation_cons_append ["m100"; "m200"] "m0").
Qed.


(** ** Upsert *)

Lemma filter_none {A} (P : A → Prop) `{∀ x, Decision (P x)} (l : list A) :
  (∀ x, x ∈ l → ¬ P x) → filter P l = [].
Proof.
  induction l as [|x l IH]; intros Hl; [done|].
  rewrite filter_cons_False by (apply Hl, list_elem_of_here).
  apply IH. intros y Hy. by apply Hl, list_elem_of_further.
Qed.

Lemma filter_twice {A} (P : A → Prop) `{∀ x, Decision (P x)} (l : list A) :
  filter P (filter P l) = filter P l.
Proof.
  induction l as [|x l IH]; [done|]. rewrite filter_cons.
  destruct (decide (P x)); [|done]. rewrite filter_cons_True by done.
  by rewrite IH.
Qed.

(** In a scan, exactly one record carries a given stored id. *)
Lemma one_under_id {A} `{StructLaws A} (field : A → string) value d x r :
  wfB (bucket d) → bucket d !! x = Some r → field r = value →
  filter (λ r', structID r' = x) (matching field value d) = [r].
Proof.
  intros Hwf Hl Hf. unfold matching. apply Permutation_singleton_r.
  rewrite <- (map_to_list_delete _ _ _ Hl). rewrite fmap_cons. simpl.
  rewrite filter_cons_True by done.
  rewrite filter_cons_True by (by apply Hwf in Hl).
  rewrite filter_none; [done|].
  intros r' Hr'. apply list_elem_of_filter in Hr' as [_ Hr'].
  apply list_elem_of_fmap in Hr' as ([k r''] & -> & Hin). simpl.
  apply elem_of_map_to_list in Hin.
  destruct (decide (k = x)) as [->|Hne].
  - by rewrite lookup_delete_eq in Hin.
  - rewrite lookup_delete_ne in Hin by done. by apply Hwf in Hin as ->.
Qed.

Lemma write_ok {A} `{StructLaws A} s s' d (v : A) :
  db s = Some d → write s v = (s', None) →
  ∃ d', s' = setDB s (Some d') ∧ structID v ≠ "" ∧ healthy d = true
        ∧ bucket d' = <[structID v := v]> (bucket d).
Proof.
  intros Hd. unfold write. rewrite Hd.
  destruct (Save v d) as [d' [e|]] eqn:HS; [done|].
  intros [= <-]. apply Save_inv in HS as (? & ? & ?). eauto.
Qed.

Lemma wfB_insert {A} `{Struct A} (b : gmap string A) (v : A) :
  wfB b → wfB (<[structID v := v]> b).
Proof.
  intros Hwf k r. destruct (decide (structID v = k)) as [<-|Hne].
  - rewrite lookup_insert_eq. by intros [= <-].
  - rewrite lookup_insert_ne by done. apply Hwf.
Qed.

Lemma wfB_delete {A} `{Struct A} (b : gmap string A) k :
  wfB b → wfB (delete k b).
Proof.
  intros Hwf k' r Hl. apply Hwf.
  destruct (decide (k = k')) as [->|Hne].
  - by rewrite lookup_delete_eq in Hl.
  - by rewrite lookup_delete_ne in Hl.
Qed.

(** Saving a record under an id that is already taken replaces the
    record: the bucket then holds the second record under that id, the
    other ids are as they were, and a scan of the record's kind returns
    exactly one record with that id, the second one. *)
Lemma upsert {A} `{StructLaws A} (fieldT : A → string) kind
    s s1 s2 d (r1 r2 : A) :
  db s = Some d → wfB (bucket d) →
  structID r1 = structID r2 → fieldT r2 = kind →
  write s r1 = (s1, None) → write s1 r2 = (s2, None) →
  ∃ d2, db s2 = Some d2
    ∧ bucket d2 !! structID r2 = Some r2
    ∧ (∀ k, k ≠ structID r2 → bucket d2 !! k = bucket d !! k)
    ∧ (∀ s3 v, readKind fieldT kind s2 = (s3, v, None) →
               filter (λ r, structID r = structID r2) v = [r2])
    ∧ (healthy d2 = true →
       ∃ s3 v, readKind fieldT kind s2 = (s3, v, None)).
Proof.
  intros Hd Hwf Hid HT W1 W2.
  destruct (write_ok _ _ _ _ Hd W1) as (d1 & -> & _ & _ & Hb1).
  destruct (write_ok (setDB s (Some d1)) _ d1 _ eq_refl W2)
    as (d2 & -> & _ & _ & Hb2).
  exists d2. split; [done|].
  assert (Hl : bucket d2 !! structID r2 = Some r2).
  { rewrite Hb2. apply lookup_insert_eq. }
  assert (Hwf2 : wfB (bucket d2)).
  { rewrite Hb2, Hb1. exact (wfB_insert _ r2 (wfB_insert _ r1 Hwf)). }
  split; [done|]. split; [|split].
  - intros k Hk. rewrite Hb2, Hb1.
    rewrite lookup_insert_ne by done. rewrite lookup_insert_ne; congruence.
  - intros s3 v Hr.
    destruct (readKind_inv fieldT kind (setDB (setDB s (Some d1)) (Some d2))
                d2 eq_refl) as (d3 & _ & _ & Hv).
    rewrite Hr in Hv. simpl in Hv. destruct Hv as [_ ->].
    by apply one_under_id.
  - intros Hh. unfold readKind. simpl. unfold Find.
    destruct (begin_healthy _ Hh) as [d3 ->].
    destruct (matching fieldT kind d3); simpl; eauto.
Qed.

Lemma upserts_readKind {A} `{StructLaws A} (fieldT : A → string) kind s d :
  db s = Some d → wfB (bucket d) →
  upserts write (readKind fieldT kind) fieldT kind s.
Proof.
  intros Hd Hwf r1 r2 s1 s2 Hid HT W1 W2.
  destruct (upsert fieldT kind s s1 s2 d r1 r2 Hd Hwf Hid HT W1 W2)
    as (d2 & ? & ? & _ & ? & ?).
  exists d2. done.
Qed.

Lemma readKind_healthy {A} `{StructLaws A} (fieldT : A → string) kind s d :
  db s = Some d → healthy d = true →
  ∃ d', readKind fieldT kind s
        = (setDB s (Some d'), matching fieldT kind d, None)
    ∧ contents d' = contents d.
Proof.
  intros Hd Hh. destruct (begin_healthy _ Hh) as [d' Hb].
  exists d'. split; [|by eapply begin_contents].
  unfold readKind, Find. rewrite Hd, Hb.
  assert (Hm : matching fieldT kind d' = matching fieldT kind d).
  { unfold matching. by rewrite (begin_bucket _ _ _ Hb). }
  rewrite Hm. by destruct (matching fieldT kind d).
Qed.

Lemma write_healthy {A} `{StructLaws A} : stores (write (A:=A)).
Proof.
  intros s d r Hd Hh Hid. destruct (begin_healthy _ Hh) as [d' Hb].
  exists (withBucket (<[structID r := r]> (bucket d')) d').
  unfold write, Save. rewrite Hd.
  destruct (String.eqb_spec (structID r) ""); [done|]. rewrite Hb.
  split; [done|]. rewrite bucket_withBucket. apply lookup_insert_eq.
Qed.

Lemma write_no_faults {A} `{StructLaws A} s d (v : A) :
  db s = Some d → opened d = true → faults d = [] → structID v ≠ "" →
  write s v
  = (setDB s (Some (withBucket (<[structID v := v]> (bucket d)) d)), None).
Proof.
  intros Hd Ho Hf Hid. unfold write, Save, begin. rewrite Hd, Ho, Hf.
  by destruct (String.eqb_spec (structID v) "").
Qed.

Lemma overwrites_readKind {A} `{StructLaws A} (fieldT : A → string) kind
    s d :
  db s = Some d → wfB (bucket d) →
  overwrites write (readKind fieldT kind) fieldT kind s d.
Proof.
  intros Hd Hwf Ho Hf r1 r2 Hid Hne HT.
  set (d1 := withBucket (<[structID r1 := r1]> (bucket d)) d).
  set (d2 := withBucket (<[structID r2 := r2]> (bucket d1)) d1).
  assert (Ho1 : opened d1 = true) by (unfold d1; by rewrite opened_withBucket).
  assert (Hf1 : faults d1 = []) by (unfold d1; by rewrite faults_withBucket).
  assert (Hh2 : healthy d2 = true).
  { unfold healthy, d2. by rewrite opened_withBucket, faults_withBucket, Ho1, Hf1. }
  assert (Hw1 : write s r1 = (setDB s (Some d1), None)).
  { apply write_no_faults; congruence. }
  assert (Hw2 : write (setDB s (Some d1)) r2
                = (setDB (setDB s (Some d1)) (Some d2), None)).
  { by apply write_no_faults. }
  destruct (readKind_healthy fieldT kind
              (setDB (setDB s (Some d1)) (Some d2)) d2 eq_refl Hh2)
    as (d3 & Hr & _).
  eexists _, _, _, _. split; [exact Hw1|]. split; [exact Hw2|].
  split; [exact Hr|].
  apply one_under_id; [| |done].
  - unfold d2, d1. rewrite !bucket_withBucket.
    exact (wfB_insert _ r2 (wfB_insert _ r1 Hwf)).
  - unfold d2. rewrite bucket_withBucket. apply lookup_insert_eq.
Qed.

(** The server info row: two writes under the fixed id that both went
    through leave the second row there, and a read that goes through
    returns it. *)
Lemma ServerInfo_upsert s d r1 r2 s1 s2 :
  db s = Some d → wfB (A:=ServerInfo) (ServerInfoBucket d) →
  si_ID r1 = KServerInfo → si_ID r2 = KServerInfo →
  WriteServerInfo s r1 = (s1, None) →
  WriteServerInfo s1 r2 = (s2, None) →
  ∃ d2, db s2 = Some d2
    ∧ ServerInfoBucket d2 !! KServerInfo = Some r2
    ∧ ∀ s3 v, ReadServerInfo s2 = (s3, v, None) → v = r2.
Proof.
  intros Hd W1 Hr1 Hr2 Hw1 Hw2.
  destruct (write_ok _ _ _ _ Hd Hw1) as (d1 & -> & _ & _ & Hb1).
  destruct (write_ok (setDB s (Some d1)) _ d1 _ eq_refl Hw2)
    as (d2 & -> & _ & _ & Hb2).
  simpl in Hb1, Hb2. exists d2. split; [done|].
  assert (Hl : ServerInfoBucket d2 !! KServerInfo = Some r2).
  { rewrite Hb2, Hr2. apply lookup_insert_eq. }
  split; [done|]. intros s3 v. unfold ReadServerInfo. simpl.
  assert (Hwf2 : wfB (A:=ServerInfo) (ServerInfoBucket d2)).
  { rewrite Hb2, Hb1.
    exact (wfB_insert _ r2 (wfB_insert _ r1 W1)). }
  pose proof (one_under_id si_ID KServerInfo d2 KServerInfo r2 Hwf2 Hl Hr2)
    as Hone.
  unfold matching in Hone. simpl in Hone. rewrite filter_twice in Hone.
  unfold One. destruct (begin d2) as [d3 [e|]] eqn:Hb.
  - simpl. unfold begin in Hb. destruct (opened d2); [|by injection Hb as _ <-].
    destruct (faults d2) as [|[m|] fs]; simplify_eq/=; done.
  - unfold matching. rewrite (begin_bucket (A:=ServerInfo) _ _ _ Hb).
    change (bucket (A:=ServerInfo) d2) with (ServerInfoBucket d2).
    rewrite Hone. simpl. by intros [= _ <-].
Qed.

(** On an engine that fails no transaction, two writes of the server
    info row go through and ReadServerInfo returns the second row. *)
Lemma ServerInfo_overwrites s d r1 r2 :
  db s = Some d → wfB (A:=ServerInfo) (ServerInfoBucket d) →
  opened d = true → faults d = [] →
  si_ID r1 = KServerInfo → si_ID r2 = KServerInfo →
  ∃ s1 s2 s3, WriteServerInfo s r1 = (s1, None)
    ∧ WriteServerInfo s1 r2 = (s2, None)
    ∧ ReadServerInfo s2 = (s3, r2, None).
Proof.
  intros Hd W1 Ho Hf Hr1 Hr2.
  set (d1 := withBucket (<[si_ID r1 := r1]> (ServerInfoBucket d)) d).
  set (d2 := withBucket (<[si_ID r2 := r2]> (ServerInfoBucket d1)) d1).
  assert (Hn1 : si_ID r1 ≠ "") by (rewrite Hr1; discriminate).
  assert (Hn2 : si_ID r2 ≠ "") by (rewrite Hr2; discriminate).
  assert (Hw1 : WriteServerInfo s r1 = (setDB s (Some d1), None)).
  { exact (write_no_faults (A:=ServerInfo) s d r1 Hd Ho Hf Hn1). }
  assert (Hw2 : WriteServerInfo (setDB s (Some d1)) r2
                = (setDB (setDB s (Some d1)) (Some d2), None)).
  { exact (write_no_faults (A:=ServerInfo) (setDB s (Some d1)) d1 r2
             eq_refl Ho Hf Hn2). }
  destruct (ServerInfo_upsert s d r1 r2 _ _ Hd W1 Hr1 Hr2 Hw1 Hw2)
    as (d2' & _ & _ & Hread).
  destruct (ReadServerInfo (setDB (setDB s (Some d1)) (Some d2)))
    as [[s3 v] err] eqn:HR.
  assert (Herr : err = None).
  { revert HR. unfold ReadServerInfo, One, begin. simpl. rewrite Ho, Hf.
    destruct (matching si_ID KServerInfo _); simpl; by intros [= _ _ <-]. }
  subst err. rewrite (Hread s3 v eq_refl) in HR.
  eexists _, _, _. split; [exact Hw1|]. split; [exact Hw2|]. exact HR.
Qed.

(** C2: saving a record whose id is already taken in its kind replaces
    the stored record: after the second of two saves under one id there
    is exactly one record under that id, the second one.  This holds for
    subscriptions, clients, in-flight and retained messages, and for
    the server info row.  A save does store: on an open store it returns
    no error whenever the engine lets its transaction through and the
    record has an id; and on an engine that fails no transaction the two
    saves and the read all go through, and the read returns the second
    record alone under that id. *)
Theorem Save_is_upsert (s : Store) (d : DB) :
  db s = Some d → wf d →
  upserts WriteInflight ReadInflight T KInflight s
  ∧ upserts WriteRetained ReadRetained T KRetained s
  ∧ upserts WriteSubscription ReadSubscriptions sub_T KSubscription s
  ∧ upserts WriteClient ReadClients cl_T KClient s
  ∧ (∀ r1 r2 s1 s2,
       si_ID r1 = KServerInfo → si_ID r2 = KServerInfo →
       WriteServerInfo s r1 = (s1, None) →
       WriteServerInfo s1 r2 = (s2, None) →
       ∃ d2, db s2 = Some d2
         ∧ ServerInfoBucket d2 !! KServerInfo = Some r2
         ∧ ∀ s3 v, ReadServerInfo s2 = (s3, v, None) → v = r2)
  ∧ (stores WriteInflight ∧ stores WriteRetained
     ∧ stores WriteSubscription ∧ stores WriteClient
     ∧ stores WriteServerInfo)
  ∧ overwrites WriteInflight ReadInflight T KInflight s d
  ∧ overwrites WriteRetained ReadRetained T KRetained s d
  ∧ overwrites WriteSubscription ReadSubscriptions sub_T KSubscription s d
  ∧ overwrites WriteClient ReadClients cl_T KClient s d
  ∧ (opened d = true → faults d = [] →
     ∀ r1 r2, si_ID r1 = KServerInfo → si_ID r2 = KServerInfo →
       ∃ s1 s2 s3, WriteServerInfo s r1 = (s1, None)
         ∧ WriteServerInfo s1 r2 = (s2, None)
         ∧ ReadServerInfo s2 = (s3, r2, None)).
Proof.
  intros Hd Hwf. pose proof Hwf as (W1 & W2 & W3 & W4).
  split; [by eapply upserts_readKind|]. split; [by eapply upserts_readKind|].
  split; [by eapply upserts_readKind|]. split; [by eapply upserts_readKind|].
  split.
  { intros r1 r2 s1 s2. exact (ServerInfo_upsert s d r1 r2 s1 s2 Hd W1). }
  split.
  { split; [exact (write_healthy (A:=Message))|].
    split; [exact (write_healthy (A:=Message))|].
    split; [exact (write_healthy (A:=Subscription))|].
    split; [exact (write_healthy (A:=Client))|].
    exact (write_healthy (A:=ServerInfo)). }
  split; [exact (overwrites_readKind T KInflight s d Hd W4)|].
  split; [exact (overwrites_readKind T KRetained s d Hd W4)|].
  split; [exact (overwrites_readKind sub_T KSubscription s d Hd W3)|].
  split; [exact (overwrites_readKind cl_T KClient s d Hd W2)|].
  intros Ho Hf r1 r2 Hr1 Hr2.
  exact (ServerInfo_overwrites s d r1 r2 Hd W1 Ho Hf Hr1 Hr2).
Qed.

Lemma Save_is_upsert_witness :
  (let s1 := (WriteInflight fresh first_try).1 in
   let s2 := (WriteInflight s1 second_try).1 in
   ∃ d2, db s2 = Some d2
     ∧ MessageBucket d2 !! "if_c1_9" = Some second_try
     ∧ (∀ s3 v, ReadInflight s2 = (s3, v, None) →
                filter (λ r, ID r = "if_c1_9") v = [second_try])
     ∧ (healthy d2 = true → ∃ s3 v, ReadInflight s2 = (s3, v, None)))
  ∧ (∃ s1 s2 s3 v,
       WriteInflight fresh first_try = (s1, None)
       ∧ WriteInflight s1 second_try = (s2, None)
       ∧ ReadInflight s2 = (s3, v, None)
       ∧ filter (λ r, ID r = "if_c1_9") v = [second_try])
  ∧ (∃ d1, WriteClient four (mkClient "c1" KClient 4 true [])
           = (setDB four (Some d1), None)
       ∧ ClientBucket d1 !! "c1" = Some (mkClient "c1" KClient 4 true [])).
Proof.
  destruct (Save_is_upsert fresh emptyDB eq_refl wf_emptyDB)
    as (Hi & _ & _ & _ & _ & _ & Ho & _).
  destruct (Save_is_upsert four fourDB eq_refl wf_fourDB)
    as (_ & _ & _ & _ & _ & (_ & _ & _ & Hc & _) & _).
  split; [|split].
  - intros s1 s2.
    apply (Hi first_try second_try s1 s2); reflexivity.
  - apply (Ho eq_refl eq_refl first_try second_try);
      [reflexivity | discriminate | reflexivity].
  - apply (Hc four fourDB (mkClient "c1" KClient 4 true []));
      [reflexivity | reflexivity | discriminate].
Defined.

(** Two saves under one id, then a read. *)
Example save_twice :
  (ReadInflight (WriteInflight (WriteInflight fresh first_try).1
                               second_try).1).1.2
  = [second_try].
Proof. vm_compute. reflexivity. Qed.

(** ** Delete *)

Lemma remove_inv {A} `{StructLaws A} s d id :
  db s = Some d →
  ∃ d', (remove A s id).1 = setDB s (Some d')
    ∧ match (remove A s id).2 with
      | None => healthy d = true ∧ is_Some (bucket (A:=A) d !! id)
                ∧ bucket d' = delete id (bucket (A:=A) d)
      | Some e => contents d' = contents d
                  ∧ (healthy d = true →
                     e = ErrNotFound ∧ bucket (A:=A) d !! id = None)
      end.
Proof.
  intros Hd. unfold remove. rewrite Hd.
  destruct (DeleteStruct (withID (A:=A) id) d) as [d' r] eqn:HD.
  apply DeleteStruct_inv in HD. rewrite structID_withID in HD.
  exists d'. destruct r; simpl; done.
Qed.

Lemma remove_absent {A} `{StructLaws A} (fieldT : A → string) kind s d id :
  db s = Some d → wf d →
  absent_delete A (remove A) (readKind fieldT kind) s d id.
Proof.
  intros Hd Hwf Hnone.
  destruct (remove_inv (A:=A) s d id Hd) as (d' & Hs & Hr).
  destruct (remove A s id) as [s' r]. simpl in *. subst s'.
  destruct r as [e|].
  2:{ destruct Hr as (_ & [r Hsome] & _). congruence. }
  destruct Hr as [Hc He]. exists d', e. split; [done|]. split; [done|].
  split; [by intros Hh; apply He|].
  intros Hin. apply list_elem_of_fmap in Hin as (r & -> & Hin).
  destruct (readKind_inv fieldT kind (setDB s (Some d')) d' eq_refl)
    as (d'' & _ & _ & Hv).
  destruct ((readKind fieldT kind (setDB s (Some d'))).2).
  - destruct Hv as [Hv _]. rewrite Hv in Hin. by apply elem_of_nil in Hin.
  - destruct Hv as [_ Hv]. rewrite Hv in Hin.
    apply elem_of_matching in Hin as [_ [k Hk]].
    assert (Hwf' : wf d').
    { unfold contents in Hc. injection Hc as C1 C2 C3 C4.
      unfold wf. by rewrite C1, C2, C3, C4. }
    pose proof (wf_bucket (A:=A) d' Hwf' _ _ Hk) as Hid. subst k.
    rewrite (bucket_contents _ _ Hc) in Hk. congruence.
Qed.

(** C3, as the code has it: deleting an id under which the kind's bucket
    stores nothing returns an error, namely the engine's not-found
    whenever the transaction itself goes through; the stored records are
    unchanged, and a subsequent read of the kind returns no record with
    that id. *)
Theorem Delete_absent (s : Store) (d : DB) (id : string) :
  db s = Some d → wf d →
  absent_delete Subscription DeleteSubscription ReadSubscriptions s d id
  ∧ absent_delete Client DeleteClient ReadClients s d id
  ∧ absent_delete Message DeleteInflight ReadInflight s d id
  ∧ absent_delete Message DeleteRetained ReadRetained s d id.
Proof.
  intros Hd Hwf. repeat split.
  - exact (remove_absent sub_T KSubscription s d id Hd Hwf).
  - exact (remove_absent cl_T KClient s d id Hd Hwf).
  - exact (remove_absent T KInflight s d id Hd Hwf).
  - exact (remove_absent T KRetained s d id Hd Hwf).
Qed.

Lemma Delete_absent_witness :
  ∃ d' e, DeleteInflight fresh "nobody" = (setDB fresh (Some d'), Some e)
    ∧ contents d' = contents emptyDB
    ∧ (healthy emptyDB = true → e = ErrNotFound)
    ∧ "nobody" ∉ ID <$> (ReadInflight (setDB fresh (Some d'))).1.2.
Proof.
  destruct (Delete_absent fresh emptyDB "nobody" eq_refl wf_emptyDB)
    as (_ & _ & Hi & _).
  exact (Hi eq_refl).
Defined.

(** C3 as stated fails: the deleters hand the engine's answer on as it
    is, and for an id that is not stored the engine answers not-found. *)
Lemma Delete_absent_counterexample :
  db fresh = Some emptyDB
  ∧ MessageBucket emptyDB !! "nobody" = None
  ∧ ClientBucket emptyDB !! "nobody" = None
  ∧ DeleteInflight fresh "nobody" = (fresh, Some ErrNotFound)
  ∧ DeleteClient fresh "nobody" = (fresh, Some ErrNotFound)
  ∧ (DeleteInflight fresh "nobody").2 ≠ None.
Proof. repeat split; done. Qed.








(** ** Well-formedness is an invariant of the store *)

Lemma sweep_wf expiry v d d' r : sweep expiry v d = (d', r) → wf d → wf d'.
Proof.
  revert d. induction v as [|m v IH]; intros d; cbn [sweep].
  { by intros [= <- _]. }
  destruct (stale expiry m); [|apply IH].
  destruct (DeleteStruct _ d) as [d1 [e|]] eqn:HD.
  - intros [= <- _]. by eapply (DeleteStruct_wf (A:=Message)).
  - intros Hs Hwf. eapply IH; [done|].
    by eapply (DeleteStruct_wf (A:=Message)).
Qed.

(** X16: every record sits under its own id, and no operation of the
    store breaks that: a store built by New has it, Open on a file that
    has it gives a store that has it, and every setter, write, delete,
    read, sweep and Close keeps it, whatever it returns. *)
Lemma store_wf_invariant (s : Store) :
  (∀ p o, store_wf (New p o))
  ∧ (∀ f, (∀ p o d, f p o = inl d → wf d) → store_wf (Open f s).1)
  ∧ (store_wf s →
     (∀ n, store_wf (SetInflightTTL s n))
     ∧ (∀ s', Close s = Closed s' → store_wf s')
     ∧ (∀ v, store_wf (WriteServerInfo s v).1)
     ∧ (∀ v, store_wf (WriteSubscription s v).1)
     ∧ (∀ v, store_wf (WriteInflight s v).1)
     ∧ (∀ v, store_wf (WriteRetained s v).1)
     ∧ (∀ v, store_wf (WriteClient s v).1)
     ∧ (∀ id, store_wf (DeleteSubscription s id).1)
     ∧ (∀ id, store_wf (DeleteClient s id).1)
     ∧ (∀ id, store_wf (DeleteInflight s id).1)
     ∧ (∀ id, store_wf (DeleteRetained s id).1)
     ∧ store_wf (ReadSubscriptions s).1.1
     ∧ store_wf (ReadClients s).1.1
     ∧ store_wf (ReadInflight s).1.1
     ∧ store_wf (ReadRetained s).1.1
     ∧ store_wf (ReadServerInfo s).1.1
     ∧ (∀ expiry, store_wf (ClearExpiredInflight s expiry).1)).
Proof.
  split; [by intros p o d|]. split.
  { intros f Hf d. unfold Open. destruct (f (path s) (opts s)) eqn:E;
      simpl; intros [= <-]. by eapply Hf. }
  intros Hs.
  assert (Hw : ∀ A (HA : Struct A) (HL : StructLaws A) (v : A),
             store_wf (write s v).1).
  { intros A HA HL v d'. unfold write. destruct (db s) as [d|] eqn:Hd.
    - destruct (Save v d) as [d1 [e|]] eqn:HS; simpl; intros [= <-];
        eapply Save_wf; eauto.
    - simpl. by rewrite Hd. }
  assert (Hr : ∀ A (HA : Struct A) (HL : StructLaws A) id,
             store_wf (remove A s id).1).
  { intros A HA HL id d'. unfold remove. destruct (db s) as [d|] eqn:Hd.
    - destruct (DeleteStruct _ d) as [d1 [e|]] eqn:HD; simpl; intros [= <-];
        eapply DeleteStruct_wf; eauto.
    - simpl. by rewrite Hd. }
  assert (Hk : ∀ A (HA : Struct A) (HL : StructLaws A) (f : A → string) k,
             store_wf (readKind f k s).1.1).
  { intros A HA HL f k d'. destruct (db s) as [d|] eqn:Hd.
    - destruct (readKind_inv f k s d Hd) as (d1 & Hc & -> & _).
      simpl. intros [= <-]. eapply wf_contents; eauto.
    - rewrite (readKind_unopened _ _ _ Hd). simpl. by rewrite Hd. }
  repeat match goal with |- _ ∧ _ => split end;
    try (intros; apply Hw; apply _); try (intros; apply Hr; apply _);
    try (apply Hk; apply _).
  - intros n d. simpl. apply Hs.
  - intros s' Hc d'. unfold Close in Hc. destruct (db s) as [d|] eqn:Hd;
      [|done]. injection Hc as <-. simpl. intros [= <-].
    apply (wf_contents d); [done|]. by apply Hs.
  - intros d'. unfold ReadServerInfo. destruct (db s) as [d|] eqn:Hd.
    + unfold One. destruct (begin d) as [d1 [e|]] eqn:Hb.
      * destruct (fatal (Some e)); simpl; intros [= <-];
          eapply begin_wf; eauto.
      * destruct (matching si_ID KServerInfo d1); simpl; intros [= <-];
          eapply begin_wf; eauto.
    + simpl. by rewrite Hd.
  - intros expiry d'. unfold ClearExpiredInflight.
    destruct (db s) as [d|] eqn:Hd; [|simpl; by rewrite Hd].
    destruct (Find T KInflight [] d) as [[d1 v] err] eqn:HF.
    apply Find_inv in HF as [Hc _].
    pose proof (wf_contents _ _ Hc (Hs _ Hd)) as Hwf1.
    destruct (fatal err); [simpl; by intros [= <-]|].
    destruct (sweep expiry v d1) as [d2 r] eqn:Hsw. simpl. intros [= <-].
    eapply sweep_wf; eauto.
Qed.

(** ** Further properties: writes *)

Ltac save_frame :=
  let Hb := fresh "Hb" in
  unfold Save; destruct (String.eqb _ _); [by intros [= <- _]|];
  match goal with |- context [begin ?d] =>
    destruct (begin d) as [? [?|]] eqn:Hb end;
  apply begin_contents in Hb; injection Hb as ? ? ? ?;
  intros [= <- _]; simpl; congruence.

Lemma Save_ServerInfo_frame (v : ServerInfo) d d' r :
  Save v d = (d', r) → besidesServerInfo d' = besidesServerInfo d.
Proof. unfold besidesServerInfo. save_frame. Qed.

Lemma Save_Client_frame (v : Client) d d' r :
  Save v d = (d', r) → besidesClient d' = besidesClient d.
Proof. unfold besidesClient. save_frame. Qed.

Lemma Save_Subscription_frame (v : Subscription) d d' r :
  Save v d = (d', r) → besidesSubscription d' = besidesSubscription d.
Proof. unfold besidesSubscription. save_frame. Qed.

Lemma Save_Message_frame (v : Message) d d' r :
  Save v d = (d', r) → besidesMessage d' = besidesMessage d.
Proof. unfold besidesMessage. save_frame. Qed.

Lemma write_inv {A} `{StructLaws A} s d (v : A) :
  db s = Some d →
  ∃ d', write s v = (setDB s (Some d'), (Save v d).2)
    ∧ Save v d = (d', (Save v d).2)
    ∧ match (Save v d).2 with
      | None => structID v ≠ "" ∧ healthy d = true
                ∧ bucket d' = <[structID v := v]> (bucket d)
      | Some _ => contents d' = contents d
      end.
Proof.
  intros Hd. unfold write. rewrite Hd.
  destruct (Save v d) as [d' r] eqn:HS. exists d'.
  apply Save_inv in HS. destruct r; simpl; done.
Qed.

Lemma write_effect_write {A} `{StructLaws A} s d (v : A) :
  db s = Some d → write_effect A write s d v.
Proof.
  intros Hd. destruct (write_inv s d v Hd) as (d' & Hw & _ & Hr).
  exists d'. rewrite Hw. split; [done|]. simpl. destruct ((Save v d).2).
  - split; [|done]. intros k _. by rewrite (bucket_contents _ _ Hr).
  - destruct Hr as (_ & _ & ->). split.
    + intros k Hk. by apply lookup_insert_ne.
    + intros _. apply lookup_insert_eq.
Qed.

Lemma write_besides {A} `{Struct A} (P : DB → Prop) s d (v : A) :
  db s = Some d → (∀ d' r, Save v d = (d', r) → P d') →
  ∀ d', db (write s v).1 = Some d' → P d'.
Proof.
  intros Hd HP d'. unfold write. rewrite Hd.
  destruct (Save v d) as [d1 [e|]] eqn:HS; simpl; intros [= <-]; eauto.
Qed.

(** X1: a write touches one id of one bucket.  Whatever it returns, the
    records of the same bucket under other ids and all records of the
    other buckets are as before; when it returns no error the written
    record is stored under its id. *)
Theorem Write_frame (s : Store) (d : DB) :
  db s = Some d →
  (∀ v, write_effect ServerInfo WriteServerInfo s d v
        ∧ ∀ d', db (WriteServerInfo s v).1 = Some d' →
                besidesServerInfo d' = besidesServerInfo d)
  ∧ (∀ v, write_effect Subscription WriteSubscription s d v
          ∧ ∀ d', db (WriteSubscription s v).1 = Some d' →
                  besidesSubscription d' = besidesSubscription d)
  ∧ (∀ v, write_effect Client WriteClient s d v
          ∧ ∀ d', db (WriteClient s v).1 = Some d' →
                  besidesClient d' = besidesClient d)
  ∧ (∀ v, write_effect Message WriteInflight s d v
          ∧ ∀ d', db (WriteInflight s v).1 = Some d' →
                  besidesMessage d' = besidesMessage d)
  ∧ (∀ v, write_effect Message WriteRetained s d v
          ∧ ∀ d', db (WriteRetained s v).1 = Some d' →
                  besidesMessage d' = besidesMessage d).
Proof.
  intros Hd.
  repeat match goal with |- _ ∧ _ => split | |- ∀ v, _ => intros v end;
    try exact (write_effect_write s d v Hd).
  - apply (write_besides (λ x, besidesServerInfo x = _) s d v Hd).
    intros x r. apply Save_ServerInfo_frame.
  - apply (write_besides (λ x, besidesSubscription x = _) s d v Hd).
    intros x r. apply Save_Subscription_frame.
  - apply (write_besides (λ x, besidesClient x = _) s d v Hd).
    intros x r. apply Save_Client_frame.
  - apply (write_besides (λ x, besidesMessage x = _) s d v Hd).
    intros x r. apply Save_Message_frame.
  - apply (write_besides (λ x, besidesMessage x = _) s d v Hd).
    intros x r. apply Save_Message_frame.
Qed.

Lemma Write_frame_witness :
  write_effect Message WriteInflight four fourDB second_try
  ∧ ∀ d', db (WriteInflight four second_try).1 = Some d' →
          besidesMessage d' = besidesMessage fourDB.
Proof.
  destruct (Write_frame four fourDB eq_refl) as (_ & _ & _ & Hi & _).
  exact (Hi second_try).
Defined.

Lemma atomic_write {A} `{StructLaws A} s d (v : A) :
  db s = Some d → atomic d (write s v).
Proof.
  intros Hd. destruct (write_inv s d v Hd) as (d' & Hw & _ & Hr).
  unfold atomic. rewrite Hw. simpl.
  destruct ((Save v d).2); [|done]. by intros _ d'' [= <-].
Qed.

Lemma atomic_remove {A} `{StructLaws A} s d id :
  db s = Some d → atomic d (remove A s id).
Proof.
  intros Hd. unfold atomic, remove. rewrite Hd.
  destruct (DeleteStruct (withID (A:=A) id) d) as [d' [e|]] eqn:HD;
    simpl; [|done].
  apply DeleteStruct_inv in HD as [Hc _]. by intros _ d'' [= <-].
Qed.

(** X2: each write and each delete is all or nothing: when it returns
    an error, the records stored in the four buckets are exactly those
    stored before the call. *)
Theorem failed_change_nothing (s : Store) (d : DB) :
  db s = Some d →
  (∀ v, atomic d (WriteServerInfo s v))
  ∧ (∀ v, atomic d (WriteSubscription s v))
  ∧ (∀ v, atomic d (WriteClient s v))
  ∧ (∀ v, atomic d (WriteInflight s v))
  ∧ (∀ v, atomic d (WriteRetained s v))
  ∧ (∀ id, atomic d (DeleteSubscription s id))
  ∧ (∀ id, atomic d (DeleteClient s id))
  ∧ (∀ id, atomic d (DeleteInflight s id))
  ∧ (∀ id, atomic d (DeleteRetained s id)).
Proof.
  intros Hd.
  repeat match goal with |- _ ∧ _ => split end; intros x;
    first [ exact (atomic_write s d x Hd) | exact (atomic_remove s d x Hd) ].
Qed.

Lemma failed_change_nothing_witness :
  (DeleteClient four "nobody").2 = Some ErrNotFound
  ∧ ∀ d', db (DeleteClient four "nobody").1 = Some d' →
          contents d' = contents fourDB.
Proof.
  split; [reflexivity|].
  destruct (failed_change_nothing four fourDB eq_refl)
    as (_ & _ & _ & _ & _ & _ & Hc & _).
  apply (Hc "nobody"). discriminate.
Defined.

(** ** Further properties: reads *)

Lemma readKind_elem {A} `{StructLaws A} (fieldT : A → string) kind s d r :
  db s = Some d → r ∈ (readKind fieldT kind s).1.2 →
  fieldT r = kind ∧ ∃ k, bucket d !! k = Some r.
Proof.
  intros Hd Hin.
  destruct (readKind_inv fieldT kind s d Hd) as (d' & _ & _ & Hv).
  destruct ((readKind fieldT kind s).2).
  - destruct Hv as [Hv _]. rewrite Hv in Hin. by apply elem_of_nil in Hin.
  - destruct Hv as [_ Hv]. rewrite Hv in Hin.
    by apply elem_of_matching in Hin.
Qed.

(** A scan by the id field returns the record stored under the id, or
    nothing. *)
Lemma matching_by_id {A} `{StructLaws A} d x :
  wfB (bucket d) →
  matching structID x d
  = match bucket (A:=A) d !! x with Some r => [r] | None => [] end.
Proof.
  intros Hwf. destruct (bucket d !! x) as [r|] eqn:Hl.
  - pose proof (one_under_id structID x d x r Hwf Hl (Hwf _ _ Hl)) as Hone.
    unfold matching in *. by rewrite filter_twice in Hone.
  - unfold matching. apply filter_none. intros r Hr Hx.
    apply list_elem_of_fmap in Hr as ([k r'] & -> & Hin).
    apply elem_of_map_to_list in Hin. simpl in Hx.
    pose proof (Hwf _ _ Hin) as Hk. congruence.
Qed.

Lemma ReadServerInfo_inv s d :
  db s = Some d → wfB (A:=ServerInfo) (ServerInfoBucket d) →
  ∃ d', contents d' = contents d
    ∧ (ReadServerInfo s).1.1 = setDB s (Some d')
    ∧ match (ReadServerInfo s).2 with
      | None => healthy d = true
                ∧ (ReadServerInfo s).1.2
                  = default zeroServerInfo (ServerInfoBucket d !! KServerInfo)
      | Some e => healthy d = false
                  ∧ (ReadServerInfo s).1.2 = zeroServerInfo
      end.
Proof.
  intros Hd Hwf. unfold ReadServerInfo, One. rewrite Hd.
  destruct (begin d) as [d1 [e|]] eqn:Hb.
  - exists d1. split; [by eapply begin_contents|].
    assert (Hh : healthy d = false ∧ fatal (Some e) = Some e).
    { unfold healthy, begin in *. destruct (opened d); [|by injection Hb as _ <-].
      destruct (faults d) as [|[m|] fs]; simplify_eq/=; done. }
    destruct Hh as [Hh ->]. done.
  - exists d1. split; [by eapply begin_contents|].
    assert (Hh : healthy d = true).
    { unfold healthy. rewrite (begin_ok _ _ Hb). unfold begin in Hb.
      rewrite (begin_ok _ _ Hb) in Hb.
      destruct (faults d) as [|[m|] fs]; simpl in *; congruence. }
    assert (Hm : matching si_ID KServerInfo d1
                 = match ServerInfoBucket d !! KServerInfo with
                   | Some r => [r] | None => [] end).
    { unfold matching. rewrite (begin_bucket (A:=ServerInfo) _ _ _ Hb).
      exact (matching_by_id (A:=ServerInfo) d KServerInfo Hwf). }
    rewrite Hm. destruct (ServerInfoBucket d !! KServerInfo); done.
Qed.

Lemma reads_back_readKind {A} `{StructLaws A} (fieldT : A → string) kind
    s d :
  db s = Some d → wfB (bucket d) →
  reads_back write (readKind fieldT kind) fieldT kind s.
Proof.
  intros Hd Hwf r s1 HT W1.
  destruct (write_ok _ _ _ _ Hd W1) as (d1 & -> & _ & _ & Hb1).
  exists d1. split; [done|].
  assert (Hl : bucket d1 !! structID r = Some r).
  { rewrite Hb1. apply lookup_insert_eq. }
  assert (Hwf1 : wfB (bucket d1)).
  { rewrite Hb1. exact (wfB_insert _ r Hwf). }
  split.
  - intros s2 v Hr.
    destruct (readKind_inv fieldT kind (setDB s (Some d1)) d1 eq_refl)
      as (d2 & _ & _ & Hv).
    rewrite Hr in Hv. simpl in Hv. destruct Hv as [_ ->].
    by apply one_under_id.
  - intros Hh.
    destruct (readKind_healthy fieldT kind (setDB s (Some d1)) d1 eq_refl Hh)
      as (d2 & Hr & _).
    eexists _, _. split; [exact Hr|].
    apply elem_of_matching. split; [done|]. by exists (structID r).
Qed.

(** X3: a record that was written is read back.  After a write that
    returned no error, every read of the record's kind that returns no
    error holds the record exactly once under its id, and the read does
    return no error and holds the record when the engine lets its
    transaction through; for the server info row, written under the
    fixed id, ReadServerInfo returns the row that was written. *)
Theorem Write_then_Read (s : Store) (d : DB) :
  db s = Some d → wf d →
  reads_back WriteSubscription ReadSubscriptions sub_T KSubscription s
  ∧ reads_back WriteClient ReadClients cl_T KClient s
  ∧ reads_back WriteInflight ReadInflight T KInflight s
  ∧ reads_back WriteRetained ReadRetained T KRetained s
  ∧ (∀ r s1, si_ID r = KServerInfo → WriteServerInfo s r = (s1, None) →
       ∃ d1, db s1 = Some d1
         ∧ (∀ s2 v, ReadServerInfo s1 = (s2, v, None) → v = r)
         ∧ (healthy d1 = true → (ReadServerInfo s1).2 = None)).
Proof.
  intros Hd Hwf. pose proof Hwf as (W1 & W2 & W3 & W4).
  split; [by eapply reads_back_readKind|].
  split; [by eapply reads_back_readKind|].
  split; [by eapply reads_back_readKind|].
  split; [by eapply reads_back_readKind|].
  intros r s1 Hid Hw.
  destruct (write_ok _ _ _ _ Hd Hw) as (d1 & -> & _ & _ & Hb1).
  simpl in Hb1. exists d1. split; [done|].
  assert (Hwf1 : wfB (A:=ServerInfo) (ServerInfoBucket d1)).
  { rewrite Hb1. exact (wfB_insert _ r W1). }
  destruct (ReadServerInfo_inv (setDB s (Some d1)) d1 eq_refl Hwf1)
    as (d2 & _ & _ & Hv).
  split.
  - intros s2 v Hr. rewrite Hr in Hv. simpl in Hv. destruct Hv as [_ ->].
    rewrite Hb1, Hid. by rewrite lookup_insert_eq.
  - intros Hh. destruct ((ReadServerInfo (setDB s (Some d1))).2); [|done].
    destruct Hv as [Hv _]. congruence.
Qed.

Lemma Write_then_Read_witness :
  ∃ d1, db (WriteInflight fresh first_try).1 = Some d1
    ∧ (∀ s2 v, ReadInflight (WriteInflight fresh first_try).1
               = (s2, v, None) →
               filter (λ r', ID r' = "if_c1_9") v = [first_try])
    ∧ (healthy d1 = true →
       ∃ s2 v, ReadInflight (WriteInflight fresh first_try).1
               = (s2, v, None) ∧ first_try ∈ v).
Proof.
  destruct (Write_then_Read fresh emptyDB eq_refl wf_emptyDB)
    as (_ & _ & Hi & _).
  exact (Hi first_try (WriteInflight fresh first_try).1 eq_refl eq_refl).
Defined.

Lemma read_only_readKind {A} `{StructLaws A} (fieldT : A → string) kind
    s d :
  db s = Some d → read_only (readKind fieldT kind) s d.
Proof.
  intros Hd. destruct (readKind_inv fieldT kind s d Hd) as (d' & ? & ? & _).
  by exists d'.
Qed.

(** X4: the five reads store nothing and delete nothing: whatever they
    return, the four buckets hold afterwards what they held before, and
    the handle is the same apart from the engine's own state. *)
Theorem Reads_change_nothing (s : Store) (d : DB) :
  db s = Some d →
  read_only ReadSubscriptions s d ∧ read_only ReadClients s d
  ∧ read_only ReadInflight s d ∧ read_only ReadRetained s d
  ∧ read_only ReadServerInfo s d.
Proof.
  intros Hd.
  split; [by apply read_only_readKind|]. split; [by apply read_only_readKind|].
  split; [by apply read_only_readKind|]. split; [by apply read_only_readKind|].
  unfold read_only, ReadServerInfo, One. rewrite Hd.
  destruct (begin d) as [d1 [e|]] eqn:Hb.
  - exists d1. split; [|by eapply begin_contents].
    by destruct (fatal (Some e)).
  - exists d1. split; [|by eapply begin_contents].
    by destruct (matching si_ID KServerInfo d1).
Qed.

Lemma Reads_change_nothing_witness :
  read_only ReadInflight mixed mixedDB
  ∧ read_only ReadServerInfo mixed mixedDB.
Proof.
  destruct (Reads_change_nothing mixed mixedDB eq_refl)
    as (_ & _ & Hi & _ & Hs).
  exact (conj Hi Hs).
Defined.

Lemma reads_all_readKind {A} `{StructLaws A} (fieldT : A → string) kind
    s d :
  db s = Some d → healthy d = true → wfB (bucket d) →
  reads_all (readKind fieldT kind) fieldT kind s d.
Proof.
  intros Hd Hh Hwf.
  destruct (readKind_healthy fieldT kind s d Hd Hh) as (d' & Hr & _).
  unfold reads_all. rewrite Hr. simpl. split; [done|]. split.
  - intros r. rewrite elem_of_matching. split.
    + intros [HT [k Hk]]. split; [done|].
      by rewrite (Hwf _ _ Hk).
    + intros [HT Hl]. eauto.
  - by apply matching_NoDup.
Qed.

(** X5: when the engine lets the transaction through, a collection read
    returns no error and exactly the stored records of its bucket that
    carry its kind tag, each of them once. *)
Theorem Read_complete (s : Store) (d : DB) :
  db s = Some d → healthy d = true → wf d →
  reads_all ReadSubscriptions sub_T KSubscription s d
  ∧ reads_all ReadClients cl_T KClient s d
  ∧ reads_all ReadInflight T KInflight s d
  ∧ reads_all ReadRetained T KRetained s d.
Proof.
  intros Hd Hh (W1 & W2 & W3 & W4).
  split; [exact (reads_all_readKind sub_T KSubscription s d Hd Hh W3)|].
  split; [exact (reads_all_readKind cl_T KClient s d Hd Hh W2)|].
  split; [exact (reads_all_readKind T KInflight s d Hd Hh W4)|].
  exact (reads_all_readKind T KRetained s d Hd Hh W4).
Qed.

Lemma Read_complete_witness :
  reads_all ReadInflight T KInflight four fourDB
  ∧ reads_all ReadRetained T KRetained four fourDB.
Proof.
  destruct (Read_complete four fourDB eq_refl eq_refl wf_fourDB)
    as (_ & _ & Hi & Hr).
  exact (conj Hi Hr).
Defined.

(** X6: ReadServerInfo looks under the one fixed id.  When the engine
    lets the transaction through it returns no error and the row stored
    under KServerInfo, or the zero row when there is none, whatever
    else the bucket holds; when the engine fails the transaction it
    returns the zero row and an error. *)
Theorem ReadServerInfo_lookup (s : Store) (d : DB) :
  db s = Some d → wf d →
  (healthy d = true →
     (ReadServerInfo s).2 = None
     ∧ (ReadServerInfo s).1.2
       = default zeroServerInfo (ServerInfoBucket d !! KServerInfo))
  ∧ (healthy d = false →
     (ReadServerInfo s).2 ≠ None
     ∧ (ReadServerInfo s).1.2 = zeroServerInfo).
Proof.
  intros Hd (W1 & _).
  destruct (ReadServerInfo_inv s d Hd W1) as (d' & _ & _ & Hv).
  destruct ((ReadServerInfo s).2); split; intros Hh;
    destruct Hv as [Hh' Hv]; try congruence; done.
Qed.

Lemma ReadServerInfo_lookup_witness :
  (ReadServerInfo four).2 = None
  ∧ (ReadServerInfo four).1.2 = zeroServerInfo
  ∧ (ReadServerInfo (setDB four (Some (setFaults [Some "i/o"] fourDB)))).2
    ≠ None.
Proof.
  destruct (ReadServerInfo_lookup four fourDB eq_refl wf_fourDB) as [Hok _].
  destruct (ReadServerInfo_lookup
              (setDB four (Some (setFaults [Some "i/o"] fourDB)))
              (setFaults [Some "i/o"] fourDB) eq_refl wf_fourDB)
    as [_ Hbad].
  destruct (Hok eq_refl) as [H1 H2]. destruct (Hbad eq_refl) as [H3 _].
  exact (conj H1 (conj H2 H3)).
Defined.

(** ** Further properties: deletes *)

Lemma remove_ok {A} `{StructLaws A} s s' d id :
  db s = Some d → remove A s id = (s', None) →
  ∃ d', s' = setDB s (Some d') ∧ healthy d = true
        ∧ is_Some (bucket (A:=A) d !! id)
        ∧ bucket d' = delete id (bucket (A:=A) d).
Proof.
  intros Hd Hr. destruct (remove_inv (A:=A) s d id Hd) as (d' & Hs & Hv).
  rewrite Hr in Hs, Hv. simpl in *. exists d'. by destruct Hv as (? & ? & ?).
Qed.

Lemma write_then_delete_remove {A} `{StructLaws A} s d :
  db s = Some d → write_then_delete A write (remove A) s d.
Proof.
  intros Hd v s1 d1 Hw Hd1 Hh.
  destruct (write_ok _ _ _ _ Hd Hw) as (d1' & -> & _ & _ & Hb1).
  simpl in Hd1. injection Hd1 as ->.
  destruct (remove_inv (A:=A) (setDB s (Some d1)) d1 (structID v) eq_refl)
    as (d2 & Hs & Hr).
  destruct (remove A (setDB s (Some d1)) (structID v)) as [s2 r].
  simpl in Hs, Hr. subst s2. exists d2. destruct r as [e|].
  - destruct Hr as [_ Hr]. destruct (Hr Hh) as [_ Hnone].
    rewrite Hb1, lookup_insert_eq in Hnone. done.
  - destruct Hr as (_ & _ & Hb2). split; [done|].
    rewrite Hb2, Hb1, delete_insert_eq. split; [done|].
    intros Hnone. by apply delete_id.
Qed.

(** X7: a delete undoes a write.  After a write that returned no error,
    deleting the record's id returns no error when the engine lets the
    transaction through, and leaves the bucket as it was before the
    write without that id; if the id was free before the write, the
    bucket is back to what it was. *)
Theorem Write_then_Delete (s : Store) (d : DB) :
  db s = Some d →
  write_then_delete Subscription WriteSubscription DeleteSubscription s d
  ∧ write_then_delete Client WriteClient DeleteClient s d
  ∧ write_then_delete Message WriteInflight DeleteInflight s d
  ∧ write_then_delete Message WriteRetained DeleteRetained s d.
Proof.
  intros Hd.
  split; [exact (write_then_delete_remove (A:=Subscription) s d Hd)|].
  split; [exact (write_then_delete_remove (A:=Client) s d Hd)|].
  split; exact (write_then_delete_remove (A:=Message) s d Hd).
Qed.

Lemma Write_then_Delete_witness :
  ∃ d2, DeleteInflight (WriteInflight fresh first_try).1 "if_c1_9"
        = (setDB (WriteInflight fresh first_try).1 (Some d2), None)
    ∧ MessageBucket d2 = delete "if_c1_9" (MessageBucket emptyDB)
    ∧ (MessageBucket emptyDB !! "if_c1_9" = None →
       MessageBucket d2 = MessageBucket emptyDB).
Proof.
  destruct (Write_then_Delete fresh emptyDB eq_refl) as (_ & _ & Hi & _).
  exact (Hi first_try (WriteInflight fresh first_try).1 _
            eq_refl eq_refl eq_refl).
Defined.

Lemma delete_then_remove {A} `{StructLaws A} (fieldT : A → string) kind
    s d :
  db s = Some d → wfB (bucket d) →
  delete_then A (remove A) (readKind fieldT kind) s.
Proof.
  intros Hd Hwf id s1 d1 Hr Hd1.
  destruct (remove_ok _ _ _ _ Hd Hr) as (d1' & -> & _ & _ & Hb1).
  simpl in Hd1. injection Hd1 as ->.
  assert (Hnone : bucket (A:=A) d1 !! id = None).
  { rewrite Hb1. apply lookup_delete_eq. }
  split.
  - intros Hin. apply list_elem_of_fmap in Hin as (r & -> & Hin).
    apply (readKind_elem fieldT kind (setDB s (Some d1)) d1 r eq_refl)
      in Hin as [_ [k Hk]].
    assert (Hwf1 : wfB (bucket d1)).
    { rewrite Hb1. exact (wfB_delete _ _ Hwf). }
    pose proof (Hwf1 _ _ Hk) as Hid. subst k. congruence.
  - intros Hh.
    destruct (remove_inv (A:=A) (setDB s (Some d1)) d1 id eq_refl)
      as (d2 & Hs & Hv).
    destruct (remove A (setDB s (Some d1)) id) as [s2 r].
    simpl in Hs, Hv. subst s2. exists d2. destruct r as [e|].
    + destruct Hv as [Hc Hv]. destruct (Hv Hh) as [-> _]. done.
    + destruct Hv as (_ & [r Hsome] & _). congruence.
Qed.

(** X8: a record that was deleted is gone.  After a delete that returned
    no error, no read of the kind returns a record with that id, and a
    second delete of the id returns the engine's not-found (when its
    transaction goes through) and changes nothing. *)
Theorem Delete_then (s : Store) (d : DB) :
  db s = Some d → wf d →
  delete_then Subscription DeleteSubscription ReadSubscriptions s
  ∧ delete_then Client DeleteClient ReadClients s
  ∧ delete_then Message DeleteInflight ReadInflight s
  ∧ delete_then Message DeleteRetained ReadRetained s.
Proof.
  intros Hd (W1 & W2 & W3 & W4).
  split; [exact (delete_then_remove sub_T KSubscription s d Hd W3)|].
  split; [exact (delete_then_remove cl_T KClient s d Hd W2)|].
  split; [exact (delete_then_remove T KInflight s d Hd W4)|].
  exact (delete_then_remove T KRetained s d Hd W4).
Qed.

Lemma Delete_then_witness :
  ("m100" ∉ ID <$> (ReadInflight (DeleteInflight four "m100").1).1.2)
  ∧ (DeleteInflight (DeleteInflight four "m100").1 "m100").2
    = Some ErrNotFound.
Proof.
  destruct (Delete_then four fourDB eq_refl wf_fourDB) as (_ & _ & Hi & _).
  destruct (Hi "m100" (DeleteInflight four "m100").1
               (withBucket (delete "m100" (MessageBucket fourDB)) fourDB)
               eq_refl eq_refl) as [Hno Htwice].
  split; [exact Hno|].
  destruct (Htwice eq_refl) as (d2 & -> & _). reflexivity.
Defined.

Lemma write_other_kind {A} `{StructLaws A} (fieldT : A → string) kind
    s s1 d (r : A) :
  db s = Some d → wfB (bucket d) → fieldT r ≠ kind →
  write s r = (s1, None) →
  structID r ∉ structID <$> (readKind fieldT kind s1).1.2.
Proof.
  intros Hd Hwf HT Hw.
  destruct (write_ok _ _ _ _ Hd Hw) as (d1 & -> & _ & _ & Hb1).
  intros Hin. apply list_elem_of_fmap in Hin as (r' & Hid & Hin).
  apply (readKind_elem fieldT kind (setDB s (Some d1)) d1 r' eq_refl)
    in Hin as [HT' [k Hk]].
  assert (Hwf1 : wfB (bucket d1)).
  { rewrite Hb1. exact (wfB_insert _ r Hwf). }
  pose proof (Hwf1 _ _ Hk) as Hk'. subst k.
  rewrite <- Hid, Hb1, lookup_insert_eq in Hk. congruence.
Qed.

(** X9: in-flight and retained messages share one bucket keyed by the
    id, and the record's tag, not the name of the write method, decides
    its kind.  A message written under the id of a stored message of
    the other kind replaces it, so the other kind's read no longer
    returns that id; and a record with the retained tag written through
    WriteInflight is returned by ReadRetained. *)
Theorem Message_kinds_share_ids (s : Store) (d : DB) :
  db s = Some d → wf d →
  (∀ r s1, T r ≠ KInflight → WriteRetained s r = (s1, None) →
           ID r ∉ ID <$> (ReadInflight s1).1.2)
  ∧ (∀ r s1, T r ≠ KRetained → WriteInflight s r = (s1, None) →
             ID r ∉ ID <$> (ReadRetained s1).1.2)
  ∧ (∀ r s1 s2 v, T r = KRetained → WriteInflight s r = (s1, None) →
                  ReadRetained s1 = (s2, v, None) →
                  filter (λ r', ID r' = ID r) v = [r]).
Proof.
  intros Hd (_ & _ & _ & W4).
  split; [|split].
  - intros r s1 HT Hw. exact (write_other_kind T KInflight s s1 d r Hd W4 HT Hw).
  - intros r s1 HT Hw. exact (write_other_kind T KRetained s s1 d r Hd W4 HT Hw).
  - intros r s1 s2 v HT Hw Hr.
    destruct (reads_back_readKind T KRetained s d Hd W4 r s1 HT Hw)
      as (d1 & _ & Hone & _).
    exact (Hone s2 v Hr).
Qed.

Lemma Message_kinds_share_ids_witness :
  "if_c1_7" ∈ ID <$> (ReadInflight mixed).1.2
  ∧ "if_c1_7" ∉ ID <$> (ReadInflight
       (WriteRetained mixed (mkMessage "if_c1_7" KRetained [] "a/b" 0 0 50)).1
     ).1.2.
Proof.
  split; [vm_compute; apply list_elem_of_here|].
  destruct (Message_kinds_share_ids mixed mixedDB eq_refl) as [Hr _].
  - repeat split; apply wfB_decide; vm_compute; reflexivity.
  - apply (Hr (mkMessage "if_c1_7" KRetained [] "a/b" 0 0 50));
      [discriminate | reflexivity].
Defined.

(** ** Further properties: the sweep *)

(** Among the stored messages, the sweep's delete list holds the ids of
    the expired ones. *)
Lemma swept_expired expiry d k m :
  wfB (A:=Message) (MessageBucket d) → MessageBucket d !! k = Some m →
  k ∈ swept expiry (matching T KInflight d) ↔ expired expiry m.
Proof.
  intros Hwf Hl. rewrite elem_of_swept. unfold expired. split.
  - intros (m' & Hm' & Hst & <-).
    apply (elem_of_matching (A:=Message)) in Hm' as [HT [k' Hk']].
    pose proof (Hwf _ _ Hk') as Hid. simpl in Hid, Hk'. subst k'.
    rewrite Hk' in Hl. injection Hl as <-. split; [done|]. by apply stale_spec.
  - intros [HT Hst]. exists m. split; [|split].
    + apply (elem_of_matching (A:=Message)). split; [done|]. by exists k.
    + by apply stale_spec.
    + by apply Hwf in Hl.
Qed.

Lemma sweep_lookup_iff s s' d expiry :
  db s = Some d → wfB (A:=Message) (MessageBucket d) →
  ClearExpiredInflight s expiry = (s', None) →
  ∃ d', s' = setDB s (Some d')
    ∧ besidesMessage d' = besidesMessage d
    ∧ ∀ k m, MessageBucket d' !! k = Some m ↔
             MessageBucket d !! k = Some m ∧ ¬ expired expiry m.
Proof.
  intros Hd Hwf Hrun.
  destruct (ClearExpiredInflight_ok _ _ _ _ Hd Hrun)
    as (d' & -> & _ & Hk & H1 & H2 & H3).
  exists d'. split; [done|].
  split; [unfold besidesMessage; by rewrite H1, H2, H3|].
  intros k m. rewrite Hk. destruct (decide (k ∈ _)) as [Hin|Hin].
  - split; [done|]. intros [Hl Hn]. exfalso. apply Hn.
    by apply (swept_expired expiry d k m Hwf Hl).
  - split; [|by intros [? _]]. intros Hl. split; [done|].
    intros He. apply Hin. by apply (swept_expired expiry d k m Hwf Hl).
Qed.

(** Whatever way a sweep ends, it has deleted nothing but ids of its
    delete list, and added nothing. *)
Lemma sweep_any expiry v d d' r :
  sweep expiry v d = (d', r) →
  (∀ k, k ∉ swept expiry v → MessageBucket d' !! k = MessageBucket d !! k)
  ∧ (∀ k m, MessageBucket d' !! k = Some m → MessageBucket d !! k = Some m)
  ∧ besidesMessage d' = besidesMessage d.
Proof.
  revert d. induction v as [|m v IH]; intros d; cbn [sweep].
  { intros [= <- _]. done. }
  rewrite swept_cons. destruct (stale expiry m); [|apply IH].
  destruct (DeleteStruct _ d) as [d1 [e|]] eqn:HD.
  - intros [= <- _].
    apply (DeleteStruct_inv (A:=Message)) in HD as [[= C1 C2 C3 C4] _].
    unfold besidesMessage. rewrite C1, C2, C3, C4. done.
  - intros Hs. apply IH in Hs as (Hk & Hsub & Hbe).
    pose proof (DeleteStruct_Message_frame _ _ _ _ HD) as (F1 & F2 & F3).
    apply (DeleteStruct_inv (A:=Message)) in HD as (_ & _ & HD).
    simpl in HD. split; [|split].
    + intros k Hn. rewrite Hk, HD.
      * apply lookup_delete_ne. intros <-. apply Hn, list_elem_of_here.
      * intros Hin. by apply Hn, list_elem_of_further.
    + intros k m' Hl. apply Hsub in Hl. rewrite HD in Hl.
      destruct (decide (ID m = k)) as [<-|Hne].
      * by rewrite lookup_delete_eq in Hl.
      * by rewrite lookup_delete_ne in Hl.
    + unfold besidesMessage in *. by rewrite <- F1, <- F2, <- F3.
Qed.

Lemma ClearExpiredInflight_any s d expiry :
  db s = Some d →
  ∃ d', (ClearExpiredInflight s expiry).1 = setDB s (Some d')
    ∧ (∀ k, k ∉ swept expiry (matching T KInflight d) →
            MessageBucket d' !! k = MessageBucket d !! k)
    ∧ (∀ k m, MessageBucket d' !! k = Some m →
              MessageBucket d !! k = Some m)
    ∧ besidesMessage d' = besidesMessage d.
Proof.
  intros Hd. unfold ClearExpiredInflight. rewrite Hd.
  destruct (Find T KInflight [] d) as [[d1 v] err] eqn:HF.
  apply Find_inv in HF as [Hc HF]. injection Hc as C1 C2 C3 C4.
  destruct (fatal err).
  - exists d1. unfold besidesMessage. rewrite C1, C2, C3, C4. done.
  - destruct HF as (_ & -> & _).
    destruct (sweep expiry _ d1) as [d2 r] eqn:Hs. exists d2.
    apply sweep_any in Hs as (Hk & Hsub & Hbe).
    unfold besidesMessage in *. rewrite C1, C2, C3, C4 in *. done.
Qed.

Lemma ClearExpiredInflight_spares s d expiry :
  db s = Some d → wfB (A:=Message) (MessageBucket d) →
  ∃ d', (ClearExpiredInflight s expiry).1 = setDB s (Some d')
    ∧ (∀ k m, MessageBucket d !! k = Some m → ¬ expired expiry m →
              MessageBucket d' !! k = Some m)
    ∧ (∀ k m, MessageBucket d' !! k = Some m →
              MessageBucket d !! k = Some m)
    ∧ besidesMessage d' = besidesMessage d.
Proof.
  intros Hd W4.
  destruct (ClearExpiredInflight_any s d expiry Hd)
    as (d' & Hs & Hk & Hsub & Hbe).
  exists d'. split; [done|]. split; [|done].
  intros k m Hl Hne. rewrite Hk; [done|].
  intros Hin. by apply Hne, (swept_expired expiry d k m W4 Hl).
Qed.

(** X10: whether it returns an error or not, the sweep deletes nothing
    but expired in-flight messages: every retained message and every
    in-flight message that is not expired is still stored as it was,
    no record is added or changed, and the other three buckets are
    untouched. *)
Theorem Sweep_spares (s : Store) (d : DB) (expiry : Z) :
  db s = Some d → wf d →
  ∃ d', (ClearExpiredInflight s expiry).1 = setDB s (Some d')
    ∧ (∀ k m, MessageBucket d !! k = Some m → ¬ expired expiry m →
              MessageBucket d' !! k = Some m)
    ∧ (∀ k m, MessageBucket d' !! k = Some m →
              MessageBucket d !! k = Some m)
    ∧ besidesMessage d' = besidesMessage d.
Proof.
  intros Hd (_ & _ & _ & W4).
  exact (ClearExpiredInflight_spares s d expiry Hd W4).
Qed.

Lemma Sweep_spares_witness :
  ∃ d', (ClearExpiredInflight faulty 400).1 = setDB faulty (Some d')
    ∧ (∀ k m, MessageBucket faultyDB !! k = Some m → ¬ expired 400 m →
              MessageBucket d' !! k = Some m)
    ∧ (∀ k m, MessageBucket d' !! k = Some m →
              MessageBucket faultyDB !! k = Some m)
    ∧ besidesMessage d' = besidesMessage faultyDB.
Proof. exact (Sweep_spares faulty faultyDB 400 eq_refl wf_faultyDB). Defined.

(** On an engine that fails no transaction, a sweep over stored records
    with pairwise different ids goes through. *)
Lemma sweep_no_faults expiry v d :
  opened d = true → faults d = [] →
  (∀ m, m ∈ v → MessageBucket d !! ID m = Some m) →
  NoDup (ID <$> v) →
  (sweep expiry v d).2 = None.
Proof.
  revert d. induction v as [|m v IH]; intros d Ho Hf Hall Hnd; cbn [sweep].
  { done. }
  rewrite fmap_cons in Hnd. apply NoDup_cons in Hnd as [Hnotin Hnd].
  assert (Hrest : ∀ m', m' ∈ v → ID m' ≠ ID m).
  { intros m' Hm' Heq. apply Hnotin. rewrite <- Heq.
    apply list_elem_of_fmap. eauto. }
  destruct (stale expiry m).
  - unfold DeleteStruct, begin. rewrite Ho, Hf. simpl.
    rewrite (Hall m) by apply list_elem_of_here.
    apply IH; simpl; try done.
    intros m' Hm'. rewrite lookup_delete_ne by (intros E; by apply (Hrest m')).
    by apply Hall, list_elem_of_further.
  - apply IH; try done. intros m' Hm'. by apply Hall, list_elem_of_further.
Qed.

(** X11: on an engine that fails no transaction the sweep returns no
    error, and the Message bucket then holds exactly the records it held
    that are not expired in-flight messages. *)
Theorem Sweep_succeeds (s : Store) (d : DB) (expiry : Z) :
  db s = Some d → wf d → opened d = true → faults d = [] →
  ∃ d', ClearExpiredInflight s expiry = (setDB s (Some d'), None)
    ∧ ∀ k m, MessageBucket d' !! k = Some m ↔
             MessageBucket d !! k = Some m ∧ ¬ expired expiry m.
Proof.
  intros Hd Hwf Ho Hf. pose proof Hwf as (_ & _ & _ & W4).
  assert (Hnone : (ClearExpiredInflight s expiry).2 = None).
  { unfold ClearExpiredInflight, Find, begin. rewrite Hd, Ho, Hf.
    assert (Hsw : (sweep expiry (matching T KInflight d) d).2 = None).
    { apply sweep_no_faults; try done.
      - intros m Hm.
        apply (elem_of_matching (A:=Message)) in Hm as [_ [k Hk]].
        pose proof (W4 _ _ Hk) as Hid. simpl in Hid. by subst k.
      - exact (matching_NoDup (A:=Message) T KInflight d W4). }
    destruct (matching T KInflight d) as [|m v] eqn:Hm; [done|].
    cbn -[sweep]. by destruct (sweep expiry (m :: v) d). }
  destruct (ClearExpiredInflight s expiry) as [s' r] eqn:Hrun.
  simpl in Hnone. subst r.
  destruct (sweep_lookup_iff s s' d expiry Hd W4 Hrun) as (d' & -> & _ & Hiff).
  by exists d'.
Qed.

Lemma Sweep_succeeds_witness :
  ∃ d', ClearExpiredInflight four 200 = (setDB four (Some d'), None)
    ∧ ∀ k m, MessageBucket d' !! k = Some m ↔
             MessageBucket fourDB !! k = Some m ∧ ¬ expired 200 m.
Proof.
  exact (Sweep_succeeds four fourDB 200 eq_refl wf_fourDB eq_refl eq_refl).
Defined.

Lemma wfB_subset (b b' : gmap string Message) :
  (∀ k m, b' !! k = Some m → b !! k = Some m) →
  wfB (A:=Message) b → wfB (A:=Message) b'.
Proof. intros Hsub Hwf k m Hl. by apply Hwf, Hsub. Qed.

(** X12: a sweep can be run again.  Whatever a first sweep did, whether
    it failed half way or went through, a second sweep with the same
    expiry that returns no error leaves exactly the records of the
    original store that are not expired in-flight messages; if the
    first sweep had already returned no error, the second one changes
    no record at all. *)
Theorem Sweep_retry (s s1 s2 : Store) (d : DB) (expiry : Z)
    (r1 : option error) :
  db s = Some d → wf d →
  ClearExpiredInflight s expiry = (s1, r1) →
  ClearExpiredInflight s1 expiry = (s2, None) →
  ∃ d1 d2, db s1 = Some d1 ∧ db s2 = Some d2
    ∧ (∀ k m, MessageBucket d2 !! k = Some m ↔
              MessageBucket d !! k = Some m ∧ ¬ expired expiry m)
    ∧ besidesMessage d2 = besidesMessage d
    ∧ (r1 = None → contents d2 = contents d1).
Proof.
  intros Hd Hwf Hrun1 Hrun2. pose proof Hwf as (_ & _ & _ & W4).
  destruct (ClearExpiredInflight_spares s d expiry Hd W4)
    as (d1 & Hs1 & Hkeep & Hsub & Hbe1).
  rewrite Hrun1 in Hs1. simpl in Hs1. subst s1.
  pose proof (wfB_subset _ _ Hsub W4) as W41.
  destruct (sweep_lookup_iff (setDB s (Some d1)) s2 d1 expiry eq_refl W41
              Hrun2)
    as (d2 & -> & Hbe2 & Hiff2).
  exists d1, d2. split; [done|]. split; [done|].
  assert (Hiff : ∀ k m, MessageBucket d2 !! k = Some m ↔
              MessageBucket d !! k = Some m ∧ ¬ expired expiry m).
  { intros k m. rewrite Hiff2. split.
    - intros [Hl Hn]. split; [by apply Hsub|done].
    - intros [Hl Hn]. split; [by apply Hkeep|done]. }
  split; [exact Hiff|]. split; [congruence|].
  intros ->.
  destruct (sweep_lookup_iff s _ d expiry Hd W4 Hrun1)
    as (d1' & [= <-] & _ & Hiff1).
  unfold contents. unfold besidesMessage in Hbe2.
  injection Hbe2 as -> -> ->. f_equal.
  apply map_eq. intros k. apply option_eq. intros m.
  by rewrite Hiff, Hiff1.
Qed.

Lemma Sweep_retry_witness :
  let s1 := (ClearExpiredInflight faulty 400).1 in
  let s2 := (ClearExpiredInflight s1 400).1 in
  ∃ d1 d2, db s1 = Some d1 ∧ db s2 = Some d2
    ∧ (∀ k m, MessageBucket d2 !! k = Some m ↔
              MessageBucket faultyDB !! k = Some m ∧ ¬ expired 400 m)
    ∧ besidesMessage d2 = besidesMessage faultyDB
    ∧ (Some (ErrEngine "disk full") = None → contents d2 = contents d1).
Proof.
  intros s1 s2.
  apply (Sweep_retry faulty s1 s2 faultyDB 400 (Some (ErrEngine "disk full")));
    [reflexivity | exact wf_faultyDB | vm_compute; reflexivity
    | vm_compute; reflexivity].
Defined.

Lemma sweep_nothing_stale expiry v d :
  (∀ m, m ∈ v → stale expiry m = false) → sweep expiry v d = (d, None).
Proof.
  induction v as [|m v IH]; intros Hall; cbn [sweep]; [done|].
  rewrite (Hall m) by apply list_elem_of_here.
  apply IH. intros m' Hm'. by apply Hall, list_elem_of_further.
Qed.

(** X13: with no expired in-flight message in the store (so also on an
    empty store), the sweep needs one transaction only: when the engine
    lets that one through it returns no error and stores and deletes
    nothing. *)
Theorem Sweep_nothing_expired (s : Store) (d : DB) (expiry : Z) :
  db s = Some d → healthy d = true →
  (∀ k m, MessageBucket d !! k = Some m → ¬ expired expiry m) →
  ∃ d', ClearExpiredInflight s expiry = (setDB s (Some d'), None)
    ∧ contents d' = contents d.
Proof.
  intros Hd Hh Hnone. destruct (begin_healthy _ Hh) as [d' Hb].
  exists d'. split; [|by eapply begin_contents].
  unfold ClearExpiredInflight, Find. rewrite Hd, Hb.
  assert (Hm : matching T KInflight d' = matching T KInflight d).
  { unfold matching. by rewrite (begin_bucket (A:=Message) _ _ _ Hb). }
  rewrite Hm.
  assert (Hsw : sweep expiry (matching T KInflight d) d' = (d', None)).
  { apply sweep_nothing_stale. intros m Hin.
    apply (elem_of_matching (A:=Message)) in Hin as [HT [k Hk]].
    destruct (stale expiry m) eqn:Hst; [|done].
    exfalso. apply (Hnone k m Hk). split; [done|]. by apply stale_spec. }
  destruct (matching T KInflight d) as [|m v]; [done|].
  cbn -[sweep]. by rewrite Hsw.
Qed.

Lemma Sweep_nothing_expired_witness :
  ∃ d', ClearExpiredInflight mixed 100 = (setDB mixed (Some d'), None)
    ∧ contents d' = contents mixedDB.
Proof.
  apply (Sweep_nothing_expired mixed mixedDB 100);
    [reflexivity | reflexivity |].
  intros k m Hl [HT Hc]. simpl in Hl.
  apply lookup_insert_Some in Hl as [[_ <-]|[_ Hl]].
  - simpl in Hc. lia.
  - apply lookup_insert_Some in Hl as [[_ <-]|[_ Hl]]; [discriminate HT|].
    by rewrite lookup_empty in Hl.
Defined.

(** ** Further properties: the life of a handle *)




Lemma write_zero_id {A} `{Struct A} s d (v : A) :
  db s = Some d → structID v = "" →
  (write s v).2 = Some ErrZeroID ∧ db (write s v).1 = Some d.
Proof.
  intros Hd Hid. unfold write, Save. rewrite Hd, Hid. done.
Qed.

(** X15: a record with an empty id is never stored: each of the five
    writes answers it with the engine's zero-id error, without a
    transaction and without any change to the database. *)
Theorem Write_zero_id (s : Store) (d : DB) :
  db s = Some d →
  (∀ v, si_ID v = "" → (WriteServerInfo s v).2 = Some ErrZeroID
                       ∧ db (WriteServerInfo s v).1 = Some d)
  ∧ (∀ v, sub_ID v = "" → (WriteSubscription s v).2 = Some ErrZeroID
                          ∧ db (WriteSubscription s v).1 = Some d)
  ∧ (∀ v, cl_ID v = "" → (WriteClient s v).2 = Some ErrZeroID
                         ∧ db (WriteClient s v).1 = Some d)
  ∧ (∀ v, ID v = "" → (WriteInflight s v).2 = Some ErrZeroID
                      ∧ db (WriteInflight s v).1 = Some d)
  ∧ (∀ v, ID v = "" → (WriteRetained s v).2 = Some ErrZeroID
                      ∧ db (WriteRetained s v).1 = Some d).
Proof.
  intros Hd.
  split; [intros v Hid; exact (write_zero_id (A:=ServerInfo) s d v Hd Hid)|].
  split; [intros v Hid; exact (write_zero_id (A:=Subscription) s d v Hd Hid)|].
  split; [intros v Hid; exact (write_zero_id (A:=Client) s d v Hd Hid)|].
  split; intros v Hid; exact (write_zero_id (A:=Message) s d v Hd Hid).
Qed.

Lemma Write_zero_id_witness :
  (WriteServerInfo four zeroServerInfo).2 = Some ErrZeroID
  ∧ db (WriteServerInfo four zeroServerInfo).1 = Some fourDB.
Proof.
  destruct (Write_zero_id four fourDB eq_refl) as [Hs _].
  exact (Hs zeroServerInfo eq_refl).
Defined.

Lemma store_wf_invariant_witness :
  store_wf (WriteInflight four second_try).1
  ∧ store_wf (DeleteInflight four "m100").1
  ∧ store_wf (ClearExpiredInflight four 200).1.
Proof.
  destruct (store_wf_invariant four) as (_ & _ & Hkeep).
  assert (Hfour : store_wf four).
  { intros d [= <-]. exact wf_fourDB. }
  destruct (Hkeep Hfour)
    as (_ & _ & _ & _ & Hw & _ & _ & _ & _ & Hd & _ & _ & _ & _ & _ & _ & Hc).
  exact (conj (Hw second_try) (conj (Hd "m100") (Hc 200))).
Defined.

(** ** Further properties: engine failures *)

Lemma begin_failing d msg fs :
  opened d = true → faults d = Some msg :: fs →
  begin d = (setFaults fs d, Some (ErrEngine msg)).
Proof. intros Ho Hf. unfold begin. by rewrite Ho, Hf. Qed.

Lemma write_failing {A} `{Struct A} s d (v : A) msg fs :
  db s = Some d → opened d = true → faults d = Some msg :: fs →
  structID v ≠ "" →
  write s v = (setDB s (Some (setFaults fs d)), Some (ErrEngine msg)).
Proof.
  intros Hd Ho Hf Hid. unfold write, Save. rewrite Hd.
  destruct (String.eqb_spec (structID v) ""); [done|].
  by rewrite (begin_failing d msg fs Ho Hf).
Qed.

Lemma remove_failing {A} `{Struct A} s d id msg fs :
  db s = Some d → opened d = true → faults d = Some msg :: fs →
  remove A s id = (setDB s (Some (setFaults fs d)), Some (ErrEngine msg)).
Proof.
  intros Hd Ho Hf. unfold remove, DeleteStruct. rewrite Hd.
  by rewrite (begin_failing d msg fs Ho Hf).
Qed.

Lemma readKind_failing {A} `{Struct A} (fieldT : A → string) kind s d
    msg fs :
  db s = Some d → opened d = true → faults d = Some msg :: fs →
  readKind fieldT kind s
  = (setDB s (Some (setFaults fs d)), [], Some (ErrEngine msg)).
Proof.
  intros Hd Ho Hf. unfold readKind, Find. rewrite Hd.
  by rewrite (begin_failing d msg fs Ho Hf).
Qed.

(** X17: an engine failure is handed to the caller as it is.  When the
    engine fails the next transaction, each write (of a record with an
    id), each delete, each read and the sweep returns exactly that
    error; the reads return nothing with it, the sweep deletes nothing,
    and the stored records are untouched. *)
Theorem Engine_failure_surfaces (s : Store) (d : DB) (msg : string)
    (fs : list (option string)) :
  db s = Some d → opened d = true → faults d = Some msg :: fs →
  let s' := setDB s (Some (setFaults fs d)) in
  let e := Some (ErrEngine msg) in
  contents (setFaults fs d) = contents d
  ∧ (∀ v, si_ID v ≠ "" → WriteServerInfo s v = (s', e))
  ∧ (∀ v, sub_ID v ≠ "" → WriteSubscription s v = (s', e))
  ∧ (∀ v, cl_ID v ≠ "" → WriteClient s v = (s', e))
  ∧ (∀ v, ID v ≠ "" → WriteInflight s v = (s', e))
  ∧ (∀ v, ID v ≠ "" → WriteRetained s v = (s', e))
  ∧ (∀ id, DeleteSubscription s id = (s', e))
  ∧ (∀ id, DeleteClient s id = (s', e))
  ∧ (∀ id, DeleteInflight s id = (s', e))
  ∧ (∀ id, DeleteRetained s id = (s', e))
  ∧ ReadSubscriptions s = (s', [], e)
  ∧ ReadClients s = (s', [], e)
  ∧ ReadInflight s = (s', [], e)
  ∧ ReadRetained s = (s', [], e)
  ∧ ReadServerInfo s = (s', zeroServerInfo, e)
  ∧ (∀ expiry, ClearExpiredInflight s expiry = (s', e)).
Proof.
  intros Hd Ho Hf s' e. split; [reflexivity|].
  split; [intros v Hv; exact (write_failing (A:=ServerInfo) s d v msg fs Hd Ho Hf Hv)|].
  split; [intros v Hv; exact (write_failing (A:=Subscription) s d v msg fs Hd Ho Hf Hv)|].
  split; [intros v Hv; exact (write_failing (A:=Client) s d v msg fs Hd Ho Hf Hv)|].
  split; [intros v Hv; exact (write_failing (A:=Message) s d v msg fs Hd Ho Hf Hv)|].
  split; [intros v Hv; exact (write_failing (A:=Message) s d v msg fs Hd Ho Hf Hv)|].
  split; [intros id; exact (remove_failing (A:=Subscription) s d id msg fs Hd Ho Hf)|].
  split; [intros id; exact (remove_failing (A:=Client) s d id msg fs Hd Ho Hf)|].
  split; [intros id; exact (remove_failing (A:=Message) s d id msg fs Hd Ho Hf)|].
  split; [intros id; exact (remove_failing (A:=Message) s d id msg fs Hd Ho Hf)|].
  split; [exact (readKind_failing sub_T KSubscription s d msg fs Hd Ho Hf)|].
  split; [exact (readKind_failing cl_T KClient s d msg fs Hd Ho Hf)|].
  split; [exact (readKind_failing T KInflight s d msg fs Hd Ho Hf)|].
  split; [exact (readKind_failing T KRetained s d msg fs Hd Ho Hf)|].
  split.
  - unfold ReadServerInfo, One. rewrite Hd.
    by rewrite (begin_failing d msg fs Ho Hf).
  - intros expiry. unfold ClearExpiredInflight, Find. rewrite Hd.
    by rewrite (begin_failing d msg fs Ho Hf).
Qed.

Lemma Engine_failure_surfaces_witness :
  let d := setFaults [Some "disk full"] fourDB in
  let s := setDB four (Some d) in
  WriteInflight s second_try
  = (setDB s (Some (setFaults [] d)), Some (ErrEngine "disk full"))
  ∧ ReadRetained s
    = (setDB s (Some (setFaults [] d)), [], Some (ErrEngine "disk full"))
  ∧ ClearExpiredInflight s 400
    = (setDB s (Some (setFaults [] d)), Some (ErrEngine "disk full")).
Proof.
  intros d s.
  destruct (Engine_failure_surfaces s d "disk full" [] eq_refl eq_refl eq_refl)
    as (_ & _ & _ & _ & Hw & _ & _ & _ & _ & _ & _ & _ & _ & Hr & _ & Hc).
  split; [apply Hw; discriminate|]. split; [exact Hr | exact (Hc 400)].
Defined.
